(** * Scheduling simulator (scheduler.c): event selection and transitions

    A shallow embedding of the single-CPU scheduling simulator of
    [scheduler.c]: the process record, the five GLib queues, the three
    comparators, [execute_move], [get_next_move] and the driver loop of
    [main], followed by the properties of the event-selection engine. *)

From Stdlib Require Import ZArith List Lia Bool Permutation Sorted.
Import ListNotations.
Open Scope Z_scope.

(** ** C [int] arithmetic

    Every field of a process and every time is a C [int].  Additions and
    subtractions are modelled with two's-complement wrap-around on 32
    bits. *)

Definition INT_MAX : Z := 2147483647.
Definition INT_MIN : Z := -2147483648.

Definition wrap (z : Z) : Z := (z + 2147483648) mod 4294967296 - 2147483648.

Definition int_add (a b : Z) : Z := wrap (a + b).
Definition int_sub (a b : Z) : Z := wrap (a - b).

Definition in_int (z : Z) : Prop := INT_MIN <= z <= INT_MAX.

(** GLib's macros [MAX(a,b) = (a > b) ? a : b] and
    [MIN(a,b) = (a < b) ? a : b]. *)
Definition MAX (a b : Z) : Z := if a >? b then a else b.
Definition MIN (a b : Z) : Z := if a <? b then a else b.

(** ** Constants of the source *)

Definition INITIAL_TIME : Z := 0.
Definition INVALID_MOVE : Z := -1.

(** State codes ([READY_STATE] ... [NEW_STATE]). *)
Inductive pstate : Set :=
| READY_STATE | RUNNING_STATE | WAITING_STATE | TERMINATED_STATE | NEW_STATE.

Definition state_code (s : pstate) : Z :=
  match s with
  | READY_STATE => 1 | RUNNING_STATE => 2 | WAITING_STATE => 3
  | TERMINATED_STATE => 4 | NEW_STATE => 5
  end.

(** Move codes. *)
Inductive Move : Set :=
| NEW_TO_READY | READY_TO_RUNNING | RUNNING_TO_TERMINATED
| RUNNING_TO_WAITING | WAITING_TO_READY | RUNNING_TO_READY.

Definition move_code (m : Move) : Z :=
  match m with
  | NEW_TO_READY => 1 | READY_TO_RUNNING => 2 | RUNNING_TO_TERMINATED => 3
  | RUNNING_TO_WAITING => 4 | WAITING_TO_READY => 5 | RUNNING_TO_READY => 6
  end.

(** Sorting algorithms ([FCFS_SORT], [SJF_SORT], [SRTF_SORT]). *)
Inductive policy : Set := FCFS_SORT | SJF_SORT | SRTF_SORT.

(** ** The process record ([struct process]) *)

Record Process : Set := mkProcess {
  pid : Z;
  start : Z;
  total : Z;
  iofreq : Z;
  iodur : Z;
  remaining : Z;
  last_start : Z;
  last_io_start : Z;
  rr : Z
}.

Definition with_remaining (p : Process) (v : Z) : Process :=
  mkProcess (pid p) (start p) (total p) (iofreq p) (iodur p) v
            (last_start p) (last_io_start p) (rr p).

Definition with_last_start (p : Process) (v : Z) : Process :=
  mkProcess (pid p) (start p) (total p) (iofreq p) (iodur p) (remaining p)
            v (last_io_start p) (rr p).

Definition with_last_io_start (p : Process) (v : Z) : Process :=
  mkProcess (pid p) (start p) (total p) (iofreq p) (iodur p) (remaining p)
            (last_start p) v (rr p).

(** The comparators. *)
Definition sort_fcfs (a b : Process) : Z := int_sub (start a) (start b).
Definition sort_sjf (a b : Process) : Z := int_sub (total a) (total b).
Definition sort_srtf (a b : Process) : Z := int_sub (remaining a) (remaining b).

(** [process_new] leaves [last_start] and [last_io_start] as [malloc]
    returned them; the two indeterminate values are the arguments
    [junk_ls] and [junk_lio]. *)
Definition process_new (pid start total iofreq iodur rr : Z)
    (junk_ls junk_lio : Z) : Process :=
  mkProcess pid start total iofreq iodur total junk_ls junk_lio rr.

(** ** Failure

    A failed [assert] and a dereference of the [NULL] that
    [g_queue_peek_head]/[g_queue_peek_tail] return on an empty queue both
    end the program: [None]. *)

Definition bind {A B : Type} (x : option A) (f : A -> option B) : option B :=
  match x with
  | Some a => f a
  | None => None
  end.

Notation "x <- e1 ;; e2" := (bind e1 (fun x => e2))
  (at level 61, e1 at next level, right associativity).

Definition assert (b : bool) : option unit := if b then Some tt else None.

(** ** GLib double-ended queues *)

(** Modelled from the spec: GLib's [GQueue] and its operations are not
    under src/.  A queue of process pointers is the list of its records,
    head first; a transfer takes the head of the source and appends it
    at the tail of the destination. *)
Definition GQueue : Set := list Process.

Definition g_queue_is_empty (q : GQueue) : bool :=
  match q with
  | [] => true
  | _ :: _ => false
  end.

Definition g_queue_push_tail (q : GQueue) (p : Process) : GQueue := q ++ [p].
Definition g_queue_push_head (q : GQueue) (p : Process) : GQueue := p :: q.

Definition g_queue_peek_head (q : GQueue) : option Process :=
  match q with
  | [] => None
  | p :: _ => Some p
  end.

Fixpoint g_queue_peek_tail (q : GQueue) : option Process :=
  match q with
  | [] => None
  | [p] => Some p
  | _ :: q' => g_queue_peek_tail q'
  end.

(** Modelled from the spec: [g_queue_sort] is not under src/.  The spec
    asks for a stable sort; this is GLib's merge sort: the list is cut
    at [n / 2], both halves are sorted and merged, and on a tie
    ([cmp a b <= 0]) the element of the first half goes first. *)
Fixpoint g_list_sort_merge (cmp : Process -> Process -> Z)
    (l1 l2 : list Process) {struct l1} : list Process :=
  let fix merge_right (l2 : list Process) {struct l2} : list Process :=
    match l1, l2 with
    | [], _ => l2
    | _, [] => l1
    | a :: l1', b :: l2' =>
        if cmp a b <=? 0 then a :: g_list_sort_merge cmp l1' l2
        else b :: merge_right l2'
    end
  in merge_right l2.

Fixpoint g_list_sort_real (fuel : nat) (cmp : Process -> Process -> Z)
    (l : list Process) : list Process :=
  match l with
  | [] => []
  | [x] => [x]
  | _ =>
      match fuel with
      | O => l
      | S fuel' =>
          let h := Nat.div2 (length l) in
          g_list_sort_merge cmp
            (g_list_sort_real fuel' cmp (firstn h l))
            (g_list_sort_real fuel' cmp (skipn h l))
      end
  end.

Definition g_queue_sort (cmp : Process -> Process -> Z) (q : GQueue) : GQueue :=
  g_list_sort_real (length q) cmp q.

(** Writing through the pointer returned by a peek. *)
Definition update_head (f : Process -> Process) (q : GQueue) : option GQueue :=
  match q with
  | [] => None
  | p :: q' => Some (f p :: q')
  end.

Fixpoint update_tail (f : Process -> Process) (q : GQueue) : option GQueue :=
  match q with
  | [] => None
  | [p] => Some [f p]
  | p :: q' => q'' <- update_tail f q';; Some (p :: q'')
  end.

(** ** Field accessors of the source *)

Definition get_head_start_val (q : GQueue) : option Z :=
  p <- g_queue_peek_head q;; Some (start p).
Definition get_tail_pid (q : GQueue) : option Z :=
  p <- g_queue_peek_tail q;; Some (pid p).
Definition get_head_iodur (q : GQueue) : option Z :=
  p <- g_queue_peek_head q;; Some (iodur p).
Definition get_head_iofreq_val (q : GQueue) : option Z :=
  p <- g_queue_peek_head q;; Some (iofreq p).
Definition get_tail_iofreq_val (q : GQueue) : option Z :=
  p <- g_queue_peek_tail q;; Some (iofreq p).
Definition get_tail_remaining_time (q : GQueue) : option Z :=
  p <- g_queue_peek_tail q;; Some (remaining p).
Definition get_head_remaining_time (q : GQueue) : option Z :=
  p <- g_queue_peek_head q;; Some (remaining p).
Definition get_head_rr_freq (q : GQueue) : option Z :=
  p <- g_queue_peek_head q;; Some (rr p).
Definition get_tail_rr_freq (q : GQueue) : option Z :=
  p <- g_queue_peek_tail q;; Some (rr p).
Definition get_head_last_start (q : GQueue) : option Z :=
  p <- g_queue_peek_head q;; Some (last_start p).
Definition get_head_last_io_start (q : GQueue) : option Z :=
  p <- g_queue_peek_head q;; Some (last_io_start p).

Definition set_tail_remaining_time (q : GQueue) (val : Z) : option GQueue :=
  update_tail (fun p => with_remaining p val) q.
Definition set_head_last_start (q : GQueue) (val : Z) : option GQueue :=
  update_head (fun p => with_last_start p val) q.
Definition set_tail_io_start (q : GQueue) (val : Z) : option GQueue :=
  update_tail (fun p => with_last_io_start p val) q.

(** [get_next_io_time] ignores its [current_time] argument. *)
Definition get_next_io_time (q : GQueue) (current_time : Z) : option Z :=
  ls <- get_head_last_start q;;
  f <- get_head_iofreq_val q;;
  Some (int_add ls f).

(** ** The simulation state

    The five queues that [main] allocates and passes by pointer to
    [get_next_move], together with the lines appended so far to the
    output file of the run. *)

Record trace_line : Set := mkLine {
  line_time : Z;
  line_pid : Z;
  line_old : pstate;
  line_new : pstate
}.

Record State : Set := mkState {
  all : GQueue;
  ready : GQueue;
  running : GQueue;
  waiting : GQueue;
  terminated : GQueue;
  trace : list trace_line
}.

(** The [from] and [to] pointers of the source name one of the five
    queues. *)
Inductive qname : Set := QAll | QReady | QRunning | QWaiting | QTerminated.

Definition queue (st : State) (n : qname) : GQueue :=
  match n with
  | QAll => all st
  | QReady => ready st
  | QRunning => running st
  | QWaiting => waiting st
  | QTerminated => terminated st
  end.

Definition set_queue (st : State) (n : qname) (q : GQueue) : State :=
  match n with
  | QAll => mkState q (ready st) (running st) (waiting st) (terminated st) (trace st)
  | QReady => mkState (all st) q (running st) (waiting st) (terminated st) (trace st)
  | QRunning => mkState (all st) (ready st) q (waiting st) (terminated st) (trace st)
  | QWaiting => mkState (all st) (ready st) (running st) q (terminated st) (trace st)
  | QTerminated => mkState (all st) (ready st) (running st) (waiting st) q (trace st)
  end.

Definition write_update (st : State) (tot pid : Z) (old new : pstate) : State :=
  mkState (all st) (ready st) (running st) (waiting st) (terminated st)
          (trace st ++ [mkLine tot pid old new]).

(** [move_process]: head of [from] to the tail of [to]. *)
Definition move_process (st : State) (from to : qname) : option State :=
  _ <- assert (negb (g_queue_is_empty (queue st from)));;
  match queue st from with
  | [] => None
  | p :: rest =>
      let st1 := set_queue st from rest in
      Some (set_queue st1 to (g_queue_push_tail (queue st1 to) p))
  end.

(** ** [execute_move] *)

Definition execute_move (st : State) (from to : qname) (move : Move)
    (current_time : Z) (sort : policy) : option State :=
  st <- move_process st from to;;
  r <- match move with
       | NEW_TO_READY =>
           p <- get_tail_pid (queue st to);;
           Some (true, write_update st current_time p NEW_STATE READY_STATE)
       | READY_TO_RUNNING =>
           q <- set_head_last_start (queue st to) current_time;;
           let st := set_queue st to q in
           p <- get_tail_pid (queue st to);;
           Some (false, write_update st current_time p READY_STATE RUNNING_STATE)
       | RUNNING_TO_TERMINATED =>
           q <- set_tail_remaining_time (queue st to) 0;;
           let st := set_queue st to q in
           p <- get_tail_pid (queue st to);;
           Some (false, write_update st current_time p RUNNING_STATE TERMINATED_STATE)
       | RUNNING_TO_WAITING =>
           rem <- get_tail_remaining_time (queue st to);;
           f <- get_tail_iofreq_val (queue st to);;
           q <- set_tail_remaining_time (queue st to) (int_sub rem f);;
           let st := set_queue st to q in
           q <- set_tail_io_start (queue st to) current_time;;
           let st := set_queue st to q in
           p <- get_tail_pid (queue st to);;
           Some (false, write_update st current_time p RUNNING_STATE WAITING_STATE)
       | WAITING_TO_READY =>
           p <- get_tail_pid (queue st to);;
           Some (true, write_update st current_time p WAITING_STATE READY_STATE)
       | RUNNING_TO_READY =>
           rem <- get_tail_remaining_time (queue st to);;
           f <- get_tail_rr_freq (queue st to);;
           q <- set_tail_remaining_time (queue st to) (int_sub rem f);;
           let st := set_queue st to q in
           p <- get_tail_pid (queue st to);;
           Some (true, write_update st current_time p RUNNING_STATE READY_STATE)
       end;;
  let '(must_sort, st) := r in
  if (must_sort : bool) then
    match sort with
    | SJF_SORT => Some (set_queue st to (g_queue_sort sort_sjf (queue st to)))
    | SRTF_SORT => Some (set_queue st to (g_queue_sort sort_srtf (queue st to)))
    | FCFS_SORT => Some st
    end
  else Some st.

(** ** [get_next_move]

    The six candidate event times, in the order of their declaration. *)

Record times : Set := mkTimes {
  all_to_ready : Z;
  ready_to_running : Z;
  running_to_terminated : Z;
  running_to_waiting : Z;
  waiting_to_ready : Z;
  running_to_ready : Z
}.

(** The six guarded assignments that follow the declarations. *)
Definition raw_times (st : State) (current_time : Z) : option times :=
  a2r <- (if negb (g_queue_is_empty (all st))
          then get_head_start_val (all st) else Some INT_MAX);;
  r2r <- (if negb (g_queue_is_empty (ready st)) && g_queue_is_empty (running st)
          then s <- get_head_start_val (ready st);; Some (MAX current_time s)
          else Some INT_MAX);;
  r2w <- (if negb (g_queue_is_empty (running st))
          then get_next_io_time (running st) current_time else Some INT_MAX);;
  r2t <- (if negb (g_queue_is_empty (running st))
          then rem <- get_head_remaining_time (running st);;
               ls <- get_head_last_start (running st);;
               Some (int_add rem ls)
          else Some INT_MAX);;
  w2r <- (if negb (g_queue_is_empty (waiting st))
          then lio <- get_head_last_io_start (waiting st);;
               d <- get_head_iodur (waiting st);;
               Some (int_add lio d)
          else Some INT_MAX);;
  rn2r <- (if negb (g_queue_is_empty (running st))
           then ls <- get_head_last_start (running st);;
                q <- get_head_rr_freq (running st);;
                Some (int_add ls q)
           else Some INT_MAX);;
  Some (mkTimes a2r r2r r2t r2w w2r rn2r).

(** "sanitize any addition overflows". *)
Definition sanitize_time (v : Z) : Z := if v <? 0 then INT_MAX else v.

Definition sanitize (c : times) : times :=
  mkTimes (sanitize_time (all_to_ready c))
          (sanitize_time (ready_to_running c))
          (sanitize_time (running_to_terminated c))
          (sanitize_time (running_to_waiting c))
          (sanitize_time (waiting_to_ready c))
          (sanitize_time (running_to_ready c)).

Definition min_time (c : times) : Z :=
  MIN (MIN (MIN (MIN (MIN (all_to_ready c) (ready_to_running c))
                     (running_to_terminated c))
                (running_to_waiting c))
           (waiting_to_ready c))
      (running_to_ready c).

(** The chain of comparisons against [min]: the move with its [from] and
    [to] queues, or [None] where the source returns [INVALID_MOVE]. *)
Definition select_move (c : times) : option (Move * qname * qname) :=
  let min := min_time c in
  if min =? INT_MAX then None
  else if min =? waiting_to_ready c then Some (WAITING_TO_READY, QWaiting, QReady)
  else if min =? all_to_ready c then Some (NEW_TO_READY, QAll, QReady)
  else if min =? running_to_ready c then Some (RUNNING_TO_READY, QRunning, QReady)
  else if min =? running_to_waiting c then Some (RUNNING_TO_WAITING, QRunning, QWaiting)
  else if min =? running_to_terminated c then Some (RUNNING_TO_TERMINATED, QRunning, QTerminated)
  else if min =? ready_to_running c then Some (READY_TO_RUNNING, QReady, QRunning)
  else None.

Definition candidate_times (st : State) (current_time : Z) : option times :=
  c <- raw_times st current_time;; Some (sanitize c).

(** The value returned and the queues after the call; [None] when an
    assertion fails. *)
Definition get_next_move (st : State) (current_time : Z) (sort : policy)
    : option (Z * State) :=
  _ <- assert (current_time >=? 0);;
  c <- candidate_times st current_time;;
  match select_move c with
  | None => Some (INVALID_MOVE, st)
  | Some (move, from, to) =>
      let current_time := min_time c in
      st' <- execute_move st from to move current_time sort;;
      Some (current_time, st')
  end.

(** ** The parser's clamping and the driver loop of [main] *)

Definition record6 : Set := (Z * Z * Z * Z * Z * Z)%type.

(** One iteration of the [fscanf] loop of [parse_file]. *)
Definition parse_record (r : record6) (junk_ls junk_lio : Z) : Process :=
  let '(pid, start, total, iofreq, iodur, rr) := r in
  let iofreq := if iofreq <=? 0 then INT_MAX else iofreq in
  let iodur := if iodur <=? 0 then INT_MAX else iodur in
  let rr := if rr <=? 0 then INT_MAX else rr in
  let total := if total <? 0 then 0 else total in
  let start := if start <? 0 then 0 else start in
  process_new pid start total iofreq iodur rr junk_ls junk_lio.

(** [parse_file] on the records read from the file, each paired with
    the two indeterminate values of its allocation: every process is
    pushed at the head of the queue. *)
Fixpoint parse_records (rs : list (record6 * (Z * Z))) (queue : GQueue)
    : GQueue :=
  match rs with
  | [] => queue
  | (r, (junk_ls, junk_lio)) :: rs' =>
      parse_records rs' (g_queue_push_head queue (parse_record r junk_ls junk_lio))
  end.

Definition parse_file (rs : list (record6 * (Z * Z))) : GQueue :=
  parse_records rs [].

(** The queues at the start of a run. *)
Definition initial_state (procs : GQueue) : State :=
  mkState procs [] [] [] [] [].

Definition load (rs : list (record6 * (Z * Z))) : State :=
  initial_state (g_queue_sort sort_fcfs (parse_file rs)).

(** [while ((t = get_next_move(...)) != INVALID_MOVE);] for at most
    [fuel] calls: the values returned, and the final queues. *)
Fixpoint run (fuel : nat) (st : State) (t : Z) (sort : policy)
    : option (list Z * State) :=
  match fuel with
  | O => Some ([], st)
  | S fuel' =>
      r <- get_next_move st t sort;;
      let '(t', st') := r in
      if t' =? INVALID_MOVE then Some ([t'], st')
      else r' <- run fuel' st' t' sort;;
           let '(ts, st'') := r' in Some (t' :: ts, st'')
  end.

(** States and times the driver loop goes through, from the queues
    [initial_state procs] at [INITIAL_TIME]. *)
Inductive reachable (sort : policy) (procs : GQueue) : State -> Z -> Prop :=
| reach_init : reachable sort procs (initial_state procs) INITIAL_TIME
| reach_step : forall st t st' t',
    reachable sort procs st t ->
    get_next_move st t sort = Some (t', st') ->
    t' <> INVALID_MOVE ->
    reachable sort procs st' t'.

(** * Vocabulary of the properties *)

(** ** Moves and candidates *)

(** The Ready queue after the [must_sort] block of [execute_move]. *)
Definition resort (sort : policy) (q : GQueue) : GQueue :=
  match sort with
  | FCFS_SORT => q
  | SJF_SORT => g_queue_sort sort_sjf q
  | SRTF_SORT => g_queue_sort sort_srtf q
  end.

(** The value of [raw_times], read off the heads of the queues. *)
Definition raw_candidates (st : State) (t : Z) : times :=
  mkTimes
    (match all st with [] => INT_MAX | p :: _ => start p end)
    (match ready st, running st with
     | p :: _, [] => MAX t (start p)
     | _, _ => INT_MAX
     end)
    (match running st with
     | [] => INT_MAX
     | p :: _ => int_add (remaining p) (last_start p)
     end)
    (match running st with
     | [] => INT_MAX
     | p :: _ => int_add (last_start p) (iofreq p)
     end)
    (match waiting st with
     | [] => INT_MAX
     | p :: _ => int_add (last_io_start p) (iodur p)
     end)
    (match running st with
     | [] => INT_MAX
     | p :: _ => int_add (last_start p) (rr p)
     end).

(** The order in which the comparison chain of [get_next_move] tests the
    moves. *)
Definition tie_order : list Move :=
  [WAITING_TO_READY; NEW_TO_READY; RUNNING_TO_READY; RUNNING_TO_WAITING;
   RUNNING_TO_TERMINATED; READY_TO_RUNNING].

(** The candidate time of a move. *)
Definition time_of (c : times) (m : Move) : Z :=
  match m with
  | NEW_TO_READY => all_to_ready c
  | READY_TO_RUNNING => ready_to_running c
  | RUNNING_TO_TERMINATED => running_to_terminated c
  | RUNNING_TO_WAITING => running_to_waiting c
  | WAITING_TO_READY => waiting_to_ready c
  | RUNNING_TO_READY => running_to_ready c
  end.

(** The [from] and [to] queues that [get_next_move] passes with each
    move, and the two states that [execute_move] logs for it. *)
Definition move_from (m : Move) : qname :=
  match m with
  | NEW_TO_READY => QAll
  | READY_TO_RUNNING => QReady
  | RUNNING_TO_TERMINATED | RUNNING_TO_WAITING | RUNNING_TO_READY => QRunning
  | WAITING_TO_READY => QWaiting
  end.

Definition move_to (m : Move) : qname :=
  match m with
  | NEW_TO_READY | WAITING_TO_READY | RUNNING_TO_READY => QReady
  | READY_TO_RUNNING => QRunning
  | RUNNING_TO_TERMINATED => QTerminated
  | RUNNING_TO_WAITING => QWaiting
  end.

Definition old_state (m : Move) : pstate :=
  match m with
  | NEW_TO_READY => NEW_STATE
  | READY_TO_RUNNING => READY_STATE
  | RUNNING_TO_TERMINATED | RUNNING_TO_WAITING | RUNNING_TO_READY => RUNNING_STATE
  | WAITING_TO_READY => WAITING_STATE
  end.

Definition new_state (m : Move) : pstate :=
  match m with
  | NEW_TO_READY | WAITING_TO_READY | RUNNING_TO_READY => READY_STATE
  | READY_TO_RUNNING => RUNNING_STATE
  | RUNNING_TO_TERMINATED => TERMINATED_STATE
  | RUNNING_TO_WAITING => WAITING_STATE
  end.

(** The record of the moved process after the bookkeeping of its move. *)
Definition moved_process (m : Move) (t : Z) (p : Process) : Process :=
  match m with
  | NEW_TO_READY | WAITING_TO_READY => p
  | READY_TO_RUNNING => with_last_start p t
  | RUNNING_TO_TERMINATED => with_remaining p 0
  | RUNNING_TO_WAITING =>
      with_last_io_start (with_remaining p (int_sub (remaining p) (iofreq p))) t
  | RUNNING_TO_READY => with_remaining p (int_sub (remaining p) (rr p))
  end.

(** All six candidates are the sentinel. *)
Definition all_infinite (c : times) : Prop :=
  forall m, time_of c m = INT_MAX.

(** The queues after move [m] of process [p], the head of its source. *)
Definition after_move (st : State) (m : Move) (t : Z) (sort : policy)
    (p : Process) (rest : GQueue) : State :=
  let st1 := set_queue st (move_from m) rest in
  let dest := queue st1 (move_to m) ++ [moved_process m t p] in
  let dest := match move_to m with
              | QReady => resort sort dest
              | _ => dest
              end in
  write_update (set_queue st1 (move_to m) dest) t (pid p)
    (old_state m) (new_state m).

(** The order induced by a key on processes. *)
Definition key_le (key : Process -> Z) (a b : Process) : Prop :=
  key a <= key b.

(** ** States *)

(** The records of the five queues. *)
Definition processes (st : State) : list Process :=
  all st ++ ready st ++ running st ++ waiting st ++ terminated st.

(** Every field of every record is a C [int]. *)
Definition int_process (p : Process) : Prop :=
  in_int (pid p) /\ in_int (start p) /\ in_int (total p) /\
  in_int (iofreq p) /\ in_int (iodur p) /\ in_int (remaining p) /\
  in_int (last_start p) /\ in_int (last_io_start p) /\ in_int (rr p).

Definition int_state (st : State) : Prop := Forall int_process (processes st).

(** [wf_fields] is what the clamping of [parse_file] establishes on the
    fields read from the file; [wf_process] adds the initialisation of
    [remaining] by [process_new]; [live] is what remains of it while the
    remaining burst goes down. *)
Definition wf_fields (p : Process) : Prop :=
  0 <= start p <= INT_MAX /\ 0 <= total p <= INT_MAX /\
  0 < iofreq p <= INT_MAX /\ 0 < iodur p <= INT_MAX /\
  0 < rr p <= INT_MAX.

Definition wf_process (p : Process) : Prop :=
  wf_fields p /\ remaining p = total p.

Definition live (p : Process) : Prop :=
  wf_fields p /\ 0 <= remaining p <= total p.

(** What holds of a record in queue [n] during a run. *)
Definition burst_inv (n : qname) (p : Process) : Prop :=
  live p /\
  (n = QRunning -> 0 <= last_start p <= INT_MAX) /\
  (n = QWaiting -> 0 <= last_io_start p <= INT_MAX) /\
  (n = QTerminated -> remaining p = 0).

Definition sim_inv (st : State) : Prop :=
  forall n, Forall (burst_inv n) (queue st n).

(** A record that has left New did not arrive at [INT_MAX]. *)
Definition arrived_inv (n : qname) (p : Process) : Prop :=
  n <> QAll -> start p <> INT_MAX.

(** No line of the trace is at [INT_MAX], and New is what is left of the
    input after the processes that arrived. *)
Definition sentinel_inv (procs : GQueue) (st : State) : Prop :=
  (forall n, Forall (arrived_inv n) (queue st n)) /\
  Forall (fun l => 0 <= line_time l < INT_MAX) (trace st) /\
  exists pre, procs = pre ++ all st /\
              Forall (fun p => start p <> INT_MAX) pre.

(** The time and the queues after [n] iterations of the loop of [main]
    that each executed a move; [None] if the loop stopped earlier. *)
Fixpoint advance (n : nat) (st : State) (t : Z) (sort : policy)
    : option (Z * State) :=
  match n with
  | O => Some (t, st)
  | S n' =>
      r <- get_next_move st t sort;;
      let '(t', st') := r in
      if t' =? INVALID_MOVE then None else advance n' st' t' sort
  end.

(** ** Example inputs and states *)

(** A three-way tie at time 3: a process arriving at 3, a ready process
    with an idle CPU, and an I/O operation ending at 3. *)
Definition tie_state : State :=
  mkState [mkProcess 1 3 5 INT_MAX INT_MAX 5 0 0 INT_MAX]
          [mkProcess 2 0 4 INT_MAX INT_MAX 4 0 0 INT_MAX]
          []
          [mkProcess 3 0 6 1 2 5 0 1 INT_MAX]
          [] [].

(** A running process scheduled at 5 with no I/O and no quantum: both
    sentinel additions wrap to negative values. *)
Definition overflow_state : State :=
  mkState [] [] [mkProcess 1 0 10 INT_MAX INT_MAX 10 5 0 INT_MAX] [] [] [].

(** The two-process FCFS scenario, and its state after three moves. *)
Definition demo_procs : GQueue :=
  Eval vm_compute in
    g_queue_sort sort_fcfs
      (parse_file [((1, 0, 5, 0, 0, 0), (0, 0)); ((2, 1, 3, 0, 0, 0), (0, 0))]).

Definition demo_state : State :=
  Eval vm_compute in
    match advance 3 (initial_state demo_procs) INITIAL_TIME FCFS_SORT with
    | Some (_, st) => st
    | None => initial_state demo_procs
    end.

(** A process whose clamped arrival time is [INT_MAX] and one that
    arrives at 0, and their state after three moves. *)
Definition late_procs : GQueue :=
  Eval vm_compute in
    g_queue_sort sort_fcfs
      (parse_file [((1, 2147483647, 5, 0, 0, 0), (0, 0));
                   ((2, 0, 3, 0, 0, 0), (0, 0))]).

Definition late_state : State :=
  Eval vm_compute in
    match advance 3 (initial_state late_procs) INITIAL_TIME FCFS_SORT with
    | Some (_, st) => st
    | None => initial_state late_procs
    end.

(** One process whose I/O interval equals its total burst, and its
    state after two and after three moves. *)
Definition io_tie_procs : GQueue :=
  Eval vm_compute in
    g_queue_sort sort_fcfs (parse_file [((1, 0, 2, 2, 3, 0), (0, 0))]).

Definition io_tie_running : State :=
  Eval vm_compute in
    match advance 2 (initial_state io_tie_procs) INITIAL_TIME FCFS_SORT with
    | Some (_, st) => st
    | None => initial_state io_tie_procs
    end.

Definition io_tie_state : State :=
  Eval vm_compute in
    match advance 3 (initial_state io_tie_procs) INITIAL_TIME FCFS_SORT with
    | Some (_, st) => st
    | None => initial_state io_tie_procs
    end.

(** The candidates of [io_tie_running] at time 0 and of [io_tie_state]
    at time 2. *)
Definition io_tie_running_times : times :=
  Eval vm_compute in sanitize (raw_candidates io_tie_running 0).

Definition io_tie_state_times : times :=
  Eval vm_compute in sanitize (raw_candidates io_tie_state 2).

(** One process arriving at 5 whose I/O interval is [INT_MAX - 1], and
    its state after two moves. *)
Definition big_io_procs : GQueue :=
  Eval vm_compute in
    g_queue_sort sort_fcfs
      (parse_file [((1, 5, 10, 2147483646, 1, 0), (0, 0))]).

Definition big_io_state : State :=
  Eval vm_compute in
    match advance 2 (initial_state big_io_procs) INITIAL_TIME FCFS_SORT with
    | Some (_, st) => st
    | None => initial_state big_io_procs
    end.

(** A process with quantum 2 on the CPU since time 0 and a longer job
    in Ready. *)
Definition preempt_state : State :=
  mkState []
          [mkProcess 1 0 9 INT_MAX INT_MAX 9 0 0 INT_MAX]
          [mkProcess 2 0 5 INT_MAX INT_MAX 5 0 0 2]
          [] [] [].

(** Two processes with I/O interval 2: the first, arriving at 0, has I/O
    duration 100; the second, arriving at 1, has I/O duration 1. *)
Definition backwards_input : list (record6 * (Z * Z)) :=
  [((1, 0, 10, 2, 100, 0), (0, 0)); ((2, 1, 10, 2, 1, 0), (0, 0))].

(** * Properties *)

(** ** Wrap-around arithmetic *)

Lemma wrap_id (z : Z) : in_int z -> wrap z = z.
Proof.
  unfold in_int, INT_MIN, INT_MAX, wrap. intros H.
  rewrite Z.mod_small; lia.
Qed.

Lemma wrap_overflow (z : Z) :
  INT_MAX < z <= 2 * INT_MAX -> wrap z = z - 4294967296.
Proof.
  unfold INT_MAX, wrap. intros H.
  replace (z + 2147483648) with ((z - 2147483648) + 1 * 4294967296) by lia.
  rewrite Z.mod_add by lia. rewrite Z.mod_small; lia.
Qed.

Lemma wrap_in_int (z : Z) : in_int (wrap z).
Proof.
  unfold in_int, INT_MIN, INT_MAX, wrap.
  pose proof (Z.mod_pos_bound (z + 2147483648) 4294967296 ltac:(lia)). lia.
Qed.

(** The sum of two non-negative [int]s after the overflow clamp: the
    exact sum when it fits, [INT_MAX] when it wrapped. *)
Lemma sanitize_int_add (a b : Z) :
  0 <= a <= INT_MAX -> 0 <= b <= INT_MAX ->
  sanitize_time (int_add a b) = if a + b <=? INT_MAX then a + b else INT_MAX.
Proof.
  intros Ha Hb. unfold sanitize_time, int_add.
  destruct (a + b <=? INT_MAX) eqn:E.
  - apply Z.leb_le in E. rewrite wrap_id by (unfold in_int, INT_MIN; lia).
    destruct (a + b <? 0) eqn:E'; [apply Z.ltb_lt in E'; lia | reflexivity].
  - apply Z.leb_gt in E. rewrite wrap_overflow by lia.
    destruct (a + b - 4294967296 <? 0) eqn:E'; [reflexivity|].
    apply Z.ltb_ge in E'. unfold INT_MAX in *. lia.
Qed.

Lemma sanitize_time_nonneg (v : Z) : 0 <= sanitize_time v.
Proof.
  unfold sanitize_time, INT_MAX.
  destruct (v <? 0) eqn:E; [lia | apply Z.ltb_ge in E; lia].
Qed.

Lemma sanitize_time_le (v : Z) : in_int v -> sanitize_time v <= INT_MAX.
Proof.
  unfold sanitize_time, in_int. intros H.
  destruct (v <? 0); lia.
Qed.

Lemma int_sub_exact (a b : Z) :
  0 <= b <= a -> a <= INT_MAX -> int_sub a b = a - b.
Proof.
  intros H1 H2. unfold int_sub. apply wrap_id.
  unfold in_int, INT_MIN, INT_MAX in *. lia.
Qed.

Lemma MIN_spec (a b : Z) : MIN a b = Z.min a b.
Proof. unfold MIN. destruct (Z.ltb_spec a b); lia. Qed.

Lemma MAX_spec (a b : Z) : MAX a b = Z.max a b.
Proof. unfold MAX. rewrite Z.gtb_ltb. destruct (Z.ltb_spec b a); lia. Qed.

(** ** Queues *)

Lemma peek_tail_push (q : GQueue) (p : Process) :
  g_queue_peek_tail (g_queue_push_tail q p) = Some p.
Proof.
  unfold g_queue_push_tail.
  induction q as [|x q IH]; simpl; [reflexivity|].
  destruct (q ++ [p]) eqn:E; [destruct q; discriminate | exact IH].
Qed.

Lemma update_tail_push (f : Process -> Process) (q : GQueue) (p : Process) :
  update_tail f (g_queue_push_tail q p) = Some (g_queue_push_tail q (f p)).
Proof.
  unfold g_queue_push_tail.
  induction q as [|x q IH]; simpl; [reflexivity|].
  destruct (q ++ [p]) eqn:E; [destruct q; discriminate|].
  rewrite IH. reflexivity.
Qed.

Lemma queue_set_same (st : State) (n : qname) (q : GQueue) :
  queue (set_queue st n q) n = q.
Proof. destruct n; reflexivity. Qed.

(** ** The merge sort of [g_queue_sort] keeps the elements *)

Lemma g_list_sort_merge_perm (cmp : Process -> Process -> Z) (l1 l2 : list Process) :
  Permutation (g_list_sort_merge cmp l1 l2) (l1 ++ l2).
Proof.
  revert l2. induction l1 as [|a l1 IH1]; intros l2.
  - destruct l2; simpl; apply Permutation_refl.
  - induction l2 as [|b l2 IH2].
    + simpl. rewrite app_nil_r. apply Permutation_refl.
    + simpl. destruct (cmp a b <=? 0).
      * apply perm_skip. apply IH1.
      * simpl in IH2.
        apply Permutation_trans with (b :: a :: l1 ++ l2).
        -- apply perm_skip. exact IH2.
        -- change (a :: l1 ++ b :: l2) with ((a :: l1) ++ b :: l2).
           apply (Permutation_middle (a :: l1) l2 b).
Qed.

Lemma g_list_sort_real_perm (fuel : nat) (cmp : Process -> Process -> Z)
    (l : list Process) :
  Permutation (g_list_sort_real fuel cmp l) l.
Proof.
  revert l. induction fuel as [|fuel IH]; intros l.
  - destruct l as [|x [|y l]]; apply Permutation_refl.
  - destruct l as [|x [|y l]]; try apply Permutation_refl.
    cbn [g_list_sort_real].
    eapply Permutation_trans; [apply g_list_sort_merge_perm|].
    eapply Permutation_trans;
      [apply Permutation_app; apply IH|].
    rewrite firstn_skipn. apply Permutation_refl.
Qed.

Lemma g_queue_sort_perm (cmp : Process -> Process -> Z) (q : GQueue) :
  Permutation (g_queue_sort cmp q) q.
Proof. apply g_list_sort_real_perm. Qed.

(** ** What [execute_move] does for each move *)

Ltac exec_simpl :=
  unfold execute_move, move_process, get_tail_pid, get_tail_remaining_time,
    get_tail_iofreq_val, get_tail_rr_freq, set_tail_remaining_time,
    set_tail_io_start, set_head_last_start;
  cbn [queue set_queue all ready running waiting terminated trace
       assert negb g_queue_is_empty bind];
  repeat (rewrite ?peek_tail_push, ?update_tail_push;
          cbn [queue set_queue all ready running waiting terminated trace bind]).

Lemma execute_new_to_ready (st : State) (p : Process) (rest : GQueue)
    (t : Z) (sort : policy) :
  all st = p :: rest ->
  execute_move st QAll QReady NEW_TO_READY t sort =
  Some (mkState rest (resort sort (ready st ++ [p])) (running st) (waiting st)
          (terminated st)
          (trace st ++ [mkLine t (pid p) NEW_STATE READY_STATE])).
Proof.
  intros H. exec_simpl. rewrite H. exec_simpl.
  destruct sort; reflexivity.
Qed.

Lemma execute_waiting_to_ready (st : State) (p : Process) (rest : GQueue)
    (t : Z) (sort : policy) :
  waiting st = p :: rest ->
  execute_move st QWaiting QReady WAITING_TO_READY t sort =
  Some (mkState (all st) (resort sort (ready st ++ [p])) (running st) rest
          (terminated st)
          (trace st ++ [mkLine t (pid p) WAITING_STATE READY_STATE])).
Proof.
  intros H. exec_simpl. rewrite H. exec_simpl.
  destruct sort; reflexivity.
Qed.

Lemma execute_running_to_ready (st : State) (p : Process) (rest : GQueue)
    (t : Z) (sort : policy) :
  running st = p :: rest ->
  execute_move st QRunning QReady RUNNING_TO_READY t sort =
  Some (mkState (all st)
          (resort sort
             (ready st ++ [with_remaining p (int_sub (remaining p) (rr p))]))
          rest (waiting st) (terminated st)
          (trace st ++ [mkLine t (pid p) RUNNING_STATE READY_STATE])).
Proof.
  intros H. exec_simpl. rewrite H. exec_simpl.
  destruct sort; reflexivity.
Qed.

Lemma execute_running_to_waiting (st : State) (p : Process) (rest : GQueue)
    (t : Z) (sort : policy) :
  running st = p :: rest ->
  execute_move st QRunning QWaiting RUNNING_TO_WAITING t sort =
  Some (mkState (all st) (ready st) rest
          (waiting st ++
             [with_last_io_start
                (with_remaining p (int_sub (remaining p) (iofreq p))) t])
          (terminated st)
          (trace st ++ [mkLine t (pid p) RUNNING_STATE WAITING_STATE])).
Proof.
  intros H. exec_simpl. rewrite H. exec_simpl. reflexivity.
Qed.

Lemma execute_running_to_terminated (st : State) (p : Process) (rest : GQueue)
    (t : Z) (sort : policy) :
  running st = p :: rest ->
  execute_move st QRunning QTerminated RUNNING_TO_TERMINATED t sort =
  Some (mkState (all st) (ready st) rest (waiting st)
          (terminated st ++ [with_remaining p 0])
          (trace st ++ [mkLine t (pid p) RUNNING_STATE TERMINATED_STATE])).
Proof.
  intros H. exec_simpl. rewrite H. exec_simpl. reflexivity.
Qed.

(** The source stamps the head of Running and logs its tail; the two are
    the moved process when Running was empty. *)
Lemma execute_ready_to_running (st : State) (p : Process) (rest : GQueue)
    (t : Z) (sort : policy) :
  ready st = p :: rest ->
  running st = [] ->
  execute_move st QReady QRunning READY_TO_RUNNING t sort =
  Some (mkState (all st) rest [with_last_start p t] (waiting st)
          (terminated st)
          (trace st ++ [mkLine t (pid p) READY_STATE RUNNING_STATE])).
Proof.
  intros H H'. exec_simpl. rewrite H, H'. exec_simpl. reflexivity.
Qed.

(** ** The candidate times, queue by queue *)

(** No guarded read of [get_next_move] dereferences [NULL]. *)
Lemma raw_times_total (st : State) (t : Z) :
  raw_times st t = Some (raw_candidates st t).
Proof.
  unfold raw_times, raw_candidates, get_next_io_time, get_head_start_val,
    get_head_remaining_time, get_head_last_start, get_head_iofreq_val,
    get_head_last_io_start, get_head_iodur, get_head_rr_freq.
  destruct (all st), (ready st), (running st), (waiting st); reflexivity.
Qed.

Lemma candidate_times_total (st : State) (t : Z) :
  candidate_times st t = Some (sanitize (raw_candidates st t)).
Proof. unfold candidate_times. rewrite raw_times_total. reflexivity. Qed.

Lemma min_time_le (c : times) (m : Move) : min_time c <= time_of c m.
Proof.
  unfold min_time. rewrite !MIN_spec. destruct m; simpl; lia.
Qed.

Lemma min_time_attained (c : times) : exists m, time_of c m = min_time c.
Proof.
  unfold min_time. rewrite !MIN_spec.
  destruct c as [a b d e f g]; simpl.
  destruct (Z.eq_dec (Z.min (Z.min (Z.min (Z.min (Z.min a b) d) e) f) g) a);
    [exists NEW_TO_READY; simpl; lia|].
  destruct (Z.eq_dec (Z.min (Z.min (Z.min (Z.min (Z.min a b) d) e) f) g) b);
    [exists READY_TO_RUNNING; simpl; lia|].
  destruct (Z.eq_dec (Z.min (Z.min (Z.min (Z.min (Z.min a b) d) e) f) g) d);
    [exists RUNNING_TO_TERMINATED; simpl; lia|].
  destruct (Z.eq_dec (Z.min (Z.min (Z.min (Z.min (Z.min a b) d) e) f) g) e);
    [exists RUNNING_TO_WAITING; simpl; lia|].
  destruct (Z.eq_dec (Z.min (Z.min (Z.min (Z.min (Z.min a b) d) e) f) g) f);
    [exists WAITING_TO_READY; simpl; lia|].
  exists RUNNING_TO_READY; simpl; lia.
Qed.

(** The comparison chain is a search along [tie_order]; its last [else]
    is never taken. *)
Lemma select_move_find (c : times) :
  select_move c =
  if min_time c =? INT_MAX then None
  else option_map (fun m => (m, move_from m, move_to m))
         (find (fun m => min_time c =? time_of c m) tie_order).
Proof.
  unfold select_move. cbn [tie_order find time_of].
  destruct (min_time c =? INT_MAX); [reflexivity|].
  destruct (min_time c =? waiting_to_ready c) eqn:E1; [reflexivity|].
  destruct (min_time c =? all_to_ready c) eqn:E2; [reflexivity|].
  destruct (min_time c =? running_to_ready c) eqn:E3; [reflexivity|].
  destruct (min_time c =? running_to_waiting c) eqn:E4; [reflexivity|].
  destruct (min_time c =? running_to_terminated c) eqn:E5; [reflexivity|].
  destruct (min_time c =? ready_to_running c) eqn:E6; [reflexivity|].
  exfalso. destruct (min_time_attained c) as [m Hm].
  apply Z.eqb_neq in E1, E2, E3, E4, E5, E6.
  destruct m; simpl in Hm; congruence.
Qed.

Lemma select_move_some (c : times) (m : Move) (f d : qname) :
  select_move c = Some (m, f, d) ->
  f = move_from m /\ d = move_to m /\
  time_of c m = min_time c /\ min_time c <> INT_MAX.
Proof.
  rewrite select_move_find.
  destruct (min_time c =? INT_MAX) eqn:E; [discriminate|].
  apply Z.eqb_neq in E.
  destruct (find _ tie_order) as [m'|] eqn:F; [|discriminate].
  simpl. intros H. injection H as <- <- <-.
  apply find_some in F. destruct F as [_ F]. apply Z.eqb_eq in F.
  repeat split; auto.
Qed.

Lemma select_move_none (c : times) :
  select_move c = None <-> min_time c = INT_MAX.
Proof.
  rewrite select_move_find. split.
  - destruct (min_time c =? INT_MAX) eqn:E; [intros _; apply Z.eqb_eq, E|].
    destruct (find _ tie_order) eqn:F; [discriminate|]. intros _.
    destruct (min_time_attained c) as [m Hm].
    assert (In m tie_order) by (destruct m; simpl; tauto).
    apply (find_none _ _ F) in H. apply Z.eqb_neq in H. congruence.
  - intros ->. reflexivity.
Qed.

Lemma sanitize_time_of (c : times) (m : Move) :
  time_of (sanitize c) m = sanitize_time (time_of c m).
Proof. destruct m; reflexivity. Qed.

Lemma sanitize_INT_MAX : sanitize_time INT_MAX = INT_MAX.
Proof. reflexivity. Qed.

(** A candidate of an empty source queue stays at [INT_MAX]; so does
    ready -> running while Running is occupied. *)
Lemma empty_source_infinite (st : State) (t : Z) (m : Move) :
  queue st (move_from m) = [] ->
  time_of (sanitize (raw_candidates st t)) m = INT_MAX.
Proof.
  rewrite sanitize_time_of.
  destruct m; simpl; intros ->; try reflexivity.
Qed.

Lemma busy_cpu_infinite (st : State) (t : Z) :
  running st <> [] ->
  ready_to_running (sanitize (raw_candidates st t)) = INT_MAX.
Proof.
  intros H. simpl. destruct (ready st); [reflexivity|].
  destruct (running st); [congruence | reflexivity].
Qed.

Lemma selected_source (st : State) (t : Z) (m : Move) (f d : qname) :
  select_move (sanitize (raw_candidates st t)) = Some (m, f, d) ->
  f = move_from m /\ d = move_to m /\
  (exists p rest, queue st (move_from m) = p :: rest) /\
  (m = READY_TO_RUNNING -> running st = []).
Proof.
  intros H. apply select_move_some in H.
  destruct H as (Hf & Hd & Ht & Hmin).
  repeat split; auto.
  - destruct (queue st (move_from m)) as [|p rest] eqn:E; [|eauto].
    apply (empty_source_infinite st t) in E. congruence.
  - intros ->. destruct (running st) as [|p rest] eqn:E; [reflexivity|].
    assert (R : running st <> []) by (rewrite E; discriminate).
    apply (busy_cpu_infinite st t) in R. simpl in Ht. simpl in R. congruence.
Qed.

(** ** One call of [get_next_move] *)

Lemma execute_move_after (st : State) (m : Move) (t : Z) (sort : policy)
    (p : Process) (rest : GQueue) :
  queue st (move_from m) = p :: rest ->
  (m = READY_TO_RUNNING -> running st = []) ->
  execute_move st (move_from m) (move_to m) m t sort =
  Some (after_move st m t sort p rest).
Proof.
  intros Hq Hr. destruct m; simpl in Hq; cbn [move_from move_to].
  - rewrite (execute_new_to_ready st p rest) by assumption. reflexivity.
  - rewrite (execute_ready_to_running st p rest) by auto.
    unfold after_move. simpl. rewrite (Hr eq_refl). reflexivity.
  - rewrite (execute_running_to_terminated st p rest) by assumption. reflexivity.
  - rewrite (execute_running_to_waiting st p rest) by assumption. reflexivity.
  - rewrite (execute_waiting_to_ready st p rest) by assumption. reflexivity.
  - rewrite (execute_running_to_ready st p rest) by assumption. reflexivity.
Qed.

Lemma min_time_bounds (st : State) (t : Z) :
  0 <= min_time (sanitize (raw_candidates st t)) <= INT_MAX.
Proof.
  set (c := sanitize (raw_candidates st t)). split.
  - destruct (min_time_attained c) as [m <-]. unfold c.
    rewrite sanitize_time_of. apply sanitize_time_nonneg.
  - destruct (running st) as [|p rest] eqn:E.
    + etransitivity; [apply (min_time_le c RUNNING_TO_WAITING)|].
      unfold c. rewrite (empty_source_infinite st t RUNNING_TO_WAITING E). lia.
    + etransitivity; [apply (min_time_le c READY_TO_RUNNING)|].
      unfold c. cbn [time_of]. rewrite busy_cpu_infinite; [lia|].
      rewrite E. discriminate.
Qed.

(** The two outcomes of a call at a non-negative time. *)
Lemma get_next_move_outcome (st : State) (t : Z) (sort : policy) :
  0 <= t ->
  let c := sanitize (raw_candidates st t) in
  (min_time c = INT_MAX /\ get_next_move st t sort = Some (INVALID_MOVE, st)) \/
  (exists m p rest,
      select_move c = Some (m, move_from m, move_to m) /\
      time_of c m = min_time c /\ 0 <= min_time c < INT_MAX /\
      queue st (move_from m) = p :: rest /\
      (m = READY_TO_RUNNING -> running st = []) /\
      get_next_move st t sort =
      Some (min_time c, after_move st m (min_time c) sort p rest)).
Proof.
  intros Ht c. unfold get_next_move.
  replace (t >=? 0) with true by (symmetry; apply Z.geb_le; lia).
  cbn [assert bind]. rewrite candidate_times_total. cbn [bind]. fold c.
  destruct (select_move c) as [[[m f] d]|] eqn:S.
  - right. pose proof (selected_source st t m f d S) as (-> & -> & (p & rest & Hq) & Hr).
    pose proof (select_move_some c m _ _ S) as (_ & _ & Hm & Hne).
    exists m, p, rest. rewrite (execute_move_after st m _ sort p rest Hq Hr).
    pose proof (min_time_bounds st t) as B. fold c in B.
    repeat split; auto; lia.
  - left. apply select_move_none in S. split; [exact S | reflexivity].
Qed.

(** ** States whose fields are C [int]s *)

Lemma in_int_INT_MAX : in_int INT_MAX.
Proof. unfold in_int, INT_MIN, INT_MAX. lia. Qed.

Lemma int_state_queue (st : State) (n : qname) (p : Process) :
  int_state st -> In p (queue st n) -> int_process p.
Proof.
  unfold int_state, processes. rewrite Forall_forall. intros H I.
  apply H. rewrite !in_app_iff. destruct n; simpl in I; tauto.
Qed.

Lemma candidates_in_int (st : State) (t : Z) (m : Move) :
  int_state st -> in_int t -> in_int (time_of (raw_candidates st t) m).
Proof.
  intros Hs Ht.
  destruct m; simpl.
  - destruct (all st) as [|p r] eqn:E; [apply in_int_INT_MAX|].
    apply (int_state_queue st QAll p Hs). simpl. rewrite E. left. reflexivity.
  - destruct (ready st) as [|p r] eqn:E; [apply in_int_INT_MAX|].
    destruct (running st); [|apply in_int_INT_MAX].
    assert (I : in_int (start p)).
    { apply (int_state_queue st QReady p Hs). simpl. rewrite E. left. reflexivity. }
    rewrite MAX_spec. unfold in_int in *. lia.
  - destruct (running st); [apply in_int_INT_MAX | apply wrap_in_int].
  - destruct (running st); [apply in_int_INT_MAX | apply wrap_in_int].
  - destruct (waiting st); [apply in_int_INT_MAX | apply wrap_in_int].
  - destruct (running st); [apply in_int_INT_MAX | apply wrap_in_int].
Qed.

Lemma all_infinite_min (st : State) (t : Z) :
  int_state st -> in_int t ->
  all_infinite (sanitize (raw_candidates st t)) <->
  min_time (sanitize (raw_candidates st t)) = INT_MAX.
Proof.
  intros Hs Ht. set (c := sanitize (raw_candidates st t)). split.
  - intros H. destruct (min_time_attained c) as [m <-]. apply H.
  - intros H m. pose proof (min_time_le c m) as L.
    unfold c in *. rewrite sanitize_time_of in *.
    pose proof (sanitize_time_le _ (candidates_in_int st t m Hs Ht)). lia.
Qed.

Lemma find_first {A : Type} (f : A -> bool) (l : list A) (x : A) :
  find f l = Some x ->
  exists pre post, l = pre ++ x :: post /\ f x = true /\
                   forall y, In y pre -> f y = false.
Proof.
  induction l as [|a l IH]; simpl; [discriminate|].
  destruct (f a) eqn:E.
  - intros H. injection H as <-. exists [], l. simpl. repeat split; auto.
    intros y [].
  - intros H. destruct (IH H) as (pre & post & -> & Hx & Hpre).
    exists (a :: pre), post. repeat split; auto.
    intros y [<-|I]; auto.
Qed.

Lemma after_move_trace (st : State) (m : Move) (t : Z) (sort : policy)
    (p : Process) (rest : GQueue) :
  trace (after_move st m t sort p rest) =
  trace st ++ [mkLine t (pid p) (old_state m) (new_state m)].
Proof. destruct m; reflexivity. Qed.

Lemma resort_perm (sort : policy) (q : GQueue) : Permutation (resort sort q) q.
Proof. destruct sort; simpl; [apply Permutation_refl | |]; apply g_queue_sort_perm. Qed.

Lemma after_move_queues (st : State) (m : Move) (t : Z) (sort : policy)
    (p : Process) (rest : GQueue) :
  queue (after_move st m t sort p rest) (move_from m) = rest /\
  Permutation (queue (after_move st m t sort p rest) (move_to m))
    (queue st (move_to m) ++ [moved_process m t p]) /\
  forall n, n <> move_from m -> n <> move_to m ->
            queue (after_move st m t sort p rest) n = queue st n.
Proof.
  destruct m; simpl; (split; [reflexivity|]);
    (split; [try apply resort_perm; apply Permutation_refl|]);
    intros n H1 H2; destruct n; simpl; congruence.
Qed.

(** ** The tie-break order *)

(** C1: when the minimum candidate time is finite, [get_next_move] fires
    the move that comes first in the order waiting->ready, new->ready,
    running->ready, running->waiting, running->terminated,
    ready->running among the moves whose candidate equals the minimum:
    no move before it in that order attains the minimum, and the call
    executes exactly that move at the minimum time. *)
Theorem tie_break_order (st : State) (t : Z) (sort : policy) :
  0 <= t ->
  exists c, candidate_times st t = Some c /\
    (min_time c <> INT_MAX ->
     exists m pre post st',
       tie_order = pre ++ m :: post /\
       time_of c m = min_time c /\
       (forall m', In m' pre -> time_of c m' <> min_time c) /\
       execute_move st (move_from m) (move_to m) m (min_time c) sort = Some st' /\
       get_next_move st t sort = Some (min_time c, st') /\
       exists p, g_queue_peek_head (queue st (move_from m)) = Some p /\
         trace st' =
         trace st ++ [mkLine (min_time c) (pid p) (old_state m) (new_state m)]).
Proof.
  intros Ht. exists (sanitize (raw_candidates st t)).
  split; [apply candidate_times_total|]. intros Hne.
  destruct (get_next_move_outcome st t sort Ht) as [[H _]|H]; [contradiction|].
  destruct H as (m & p & rest & S & Hm & _ & Hq & Hr & G).
  rewrite select_move_find in S. apply Z.eqb_neq in Hne. rewrite Hne in S.
  destruct (find _ tie_order) as [m'|] eqn:F; [|discriminate].
  simpl in S. assert (m' = m) by congruence. subst m'.
  destruct (find_first _ _ _ F) as (pre & post & E & _ & Hpre).
  exists m, pre, post, (after_move st m (min_time (sanitize (raw_candidates st t))) sort p rest).
  repeat split; auto.
  - intros m' I. apply Hpre in I. apply Z.eqb_neq in I. congruence.
  - apply execute_move_after; assumption.
  - exists p. rewrite Hq. split; [reflexivity | apply after_move_trace].
Qed.

Lemma tie_break_order_witness :
  0 <= 3 /\
  exists c, candidate_times tie_state 3 = Some c /\
    (min_time c <> INT_MAX ->
     exists m pre post st',
       tie_order = pre ++ m :: post /\
       time_of c m = min_time c /\
       (forall m', In m' pre -> time_of c m' <> min_time c) /\
       execute_move tie_state (move_from m) (move_to m) m (min_time c) SJF_SORT
         = Some st' /\
       get_next_move tie_state 3 SJF_SORT = Some (min_time c, st') /\
       exists p, g_queue_peek_head (queue tie_state (move_from m)) = Some p /\
         trace st' =
         trace tie_state ++
           [mkLine (min_time c) (pid p) (old_state m) (new_state m)]).
Proof.
  split; [lia | apply (tie_break_order tie_state 3 SJF_SORT); lia].
Defined.

(** The tie of [tie_state] goes to waiting -> ready. *)
Example tie_state_fires_waiting_to_ready :
  option_map (fun r => (fst r, trace (snd r))) (get_next_move tie_state 3 FCFS_SORT)
  = Some (3, [mkLine 3 3 WAITING_STATE READY_STATE]).
Proof. reflexivity. Qed.

(** ** The overflow clamp *)

(** C3: the candidates used for selection are the raw candidates with
    every negative value replaced by [INT_MAX] and every other value
    kept; a candidate whose raw value is negative is never the selected
    move, and the call does not fail. *)
Theorem overflow_clamp (st : State) (t : Z) (sort : policy) :
  exists raw, raw_times st t = Some raw /\
    candidate_times st t = Some (sanitize raw) /\
    (forall m,
        (time_of raw m < 0 -> time_of (sanitize raw) m = INT_MAX) /\
        (0 <= time_of raw m -> time_of (sanitize raw) m = time_of raw m) /\
        0 <= time_of (sanitize raw) m /\
        (time_of raw m < 0 ->
         forall f d, select_move (sanitize raw) <> Some (m, f, d))) /\
    (0 <= t -> exists r, get_next_move st t sort = Some r).
Proof.
  exists (raw_candidates st t).
  split; [apply raw_times_total|]. split; [apply candidate_times_total|].
  split.
  - intros m. rewrite sanitize_time_of. unfold sanitize_time.
    destruct (Z.ltb_spec (time_of (raw_candidates st t) m) 0) as [L|L].
    + repeat split; try lia; try (unfold INT_MAX; lia).
      intros _ f d S. apply select_move_some in S.
      destruct S as (_ & _ & Hm & Hne). rewrite sanitize_time_of in Hm.
      unfold sanitize_time in Hm.
      destruct (Z.ltb_spec (time_of (raw_candidates st t) m) 0); [congruence | lia].
    + repeat split; try lia.
  - intros Ht. destruct (get_next_move_outcome st t sort Ht) as [[_ H]|H].
    + eauto.
    + destruct H as (m & p & rest & _ & _ & _ & _ & _ & G). eauto.
Qed.

Lemma overflow_clamp_witness :
  exists raw, raw_times overflow_state 5 = Some raw /\
    candidate_times overflow_state 5 = Some (sanitize raw) /\
    (forall m,
        (time_of raw m < 0 -> time_of (sanitize raw) m = INT_MAX) /\
        (0 <= time_of raw m -> time_of (sanitize raw) m = time_of raw m) /\
        0 <= time_of (sanitize raw) m /\
        (time_of raw m < 0 ->
         forall f d, select_move (sanitize raw) <> Some (m, f, d))) /\
    (0 <= 5 -> exists r, get_next_move overflow_state 5 FCFS_SORT = Some r).
Proof.
  apply (overflow_clamp overflow_state 5 FCFS_SORT).
Defined.

(** In [overflow_state] the raw running -> waiting and running -> ready
    candidates are negative and the clamped ones are [INT_MAX]. *)
Example overflow_state_clamped :
  option_map (fun c => (running_to_waiting c, running_to_ready c))
    (raw_times overflow_state 5) = Some (-2147483644, -2147483644) /\
  option_map (fun c => (running_to_waiting c, running_to_ready c))
    (candidate_times overflow_state 5) = Some (INT_MAX, INT_MAX) /\
  option_map fst (get_next_move overflow_state 5 FCFS_SORT) = Some 15.
Proof. repeat split. Qed.

(** ** Totality of a call *)

(** C4: at a non-negative time, on queues of C [int]s, a call either
    finds all six candidates at [INT_MAX], returns [INVALID_MOVE] and
    leaves the queues and the trace as they were, or executes one move:
    the head of one queue leaves it and joins another queue, one trace
    line is written, the other queues are untouched and the value
    returned is the event time of that move, which is not
    [INVALID_MOVE]. *)
Theorem advance_total (st : State) (t : Z) (sort : policy) :
  0 <= t -> in_int t -> int_state st ->
  exists c, candidate_times st t = Some c /\
    ((all_infinite c /\ get_next_move st t sort = Some (INVALID_MOVE, st)) \/
     (~ all_infinite c /\
      exists m p rest st',
        queue st (move_from m) = p :: rest /\
        execute_move st (move_from m) (move_to m) m (min_time c) sort = Some st' /\
        get_next_move st t sort = Some (min_time c, st') /\
        time_of c m = min_time c /\ min_time c <> INVALID_MOVE /\
        trace st' =
        trace st ++ [mkLine (min_time c) (pid p) (old_state m) (new_state m)] /\
        queue st' (move_from m) = rest /\
        Permutation (queue st' (move_to m))
          (queue st (move_to m) ++ [moved_process m (min_time c) p]) /\
        forall n, n <> move_from m -> n <> move_to m ->
                  queue st' n = queue st n)).
Proof.
  intros Ht Hi Hs. exists (sanitize (raw_candidates st t)).
  split; [apply candidate_times_total|].
  destruct (get_next_move_outcome st t sort Ht) as [[H G]|H].
  - left. split; [apply all_infinite_min; assumption | exact G].
  - right. destruct H as (m & p & rest & _ & Hm & B & Hq & Hr & G). split.
    + intros A. apply all_infinite_min in A; try assumption. lia.
    + set (c := sanitize (raw_candidates st t)) in *.
      exists m, p, rest, (after_move st m (min_time c) sort p rest).
      pose proof (after_move_queues st m (min_time c) sort p rest) as (Q1 & Q2 & Q3).
      repeat split; auto.
      * apply execute_move_after; assumption.
      * unfold INVALID_MOVE. lia.
      * apply after_move_trace.
Qed.

Lemma advance_total_witness :
  0 <= 3 /\ in_int 3 /\ int_state tie_state /\
  exists c, candidate_times tie_state 3 = Some c /\
    ((all_infinite c /\
      get_next_move tie_state 3 SRTF_SORT = Some (INVALID_MOVE, tie_state)) \/
     (~ all_infinite c /\
      exists m p rest st',
        queue tie_state (move_from m) = p :: rest /\
        execute_move tie_state (move_from m) (move_to m) m (min_time c) SRTF_SORT
          = Some st' /\
        get_next_move tie_state 3 SRTF_SORT = Some (min_time c, st') /\
        time_of c m = min_time c /\ min_time c <> INVALID_MOVE /\
        trace st' =
        trace tie_state ++
          [mkLine (min_time c) (pid p) (old_state m) (new_state m)] /\
        queue st' (move_from m) = rest /\
        Permutation (queue st' (move_to m))
          (queue tie_state (move_to m) ++ [moved_process m (min_time c) p]) /\
        forall n, n <> move_from m -> n <> move_to m ->
                  queue st' n = queue tie_state n)).
Proof.
  assert (I : in_int 3) by (unfold in_int, INT_MIN, INT_MAX; lia).
  assert (S : int_state tie_state)
    by (repeat constructor; unfold in_int, INT_MIN, INT_MAX; simpl; lia).
  split; [lia|]. split; [exact I|]. split; [exact S|].
  apply (advance_total tie_state 3 SRTF_SORT); [lia | exact I | exact S].
Defined.

(** ** A step of the driver loop *)

Lemma get_next_move_time (st : State) (t : Z) (sort : policy)
    (r : Z * State) :
  get_next_move st t sort = Some r -> 0 <= t.
Proof.
  unfold get_next_move. destruct (Z.geb_spec t 0) as [H|H]; [lia|].
  discriminate.
Qed.

Lemma get_next_move_step (st : State) (t : Z) (sort : policy)
    (t' : Z) (st' : State) :
  get_next_move st t sort = Some (t', st') ->
  t' <> INVALID_MOVE ->
  let c := sanitize (raw_candidates st t) in
  exists m p rest,
    select_move c = Some (m, move_from m, move_to m) /\
    time_of c m = t' /\ min_time c = t' /\ 0 <= t' < INT_MAX /\
    queue st (move_from m) = p :: rest /\
    (m = READY_TO_RUNNING -> running st = []) /\
    st' = after_move st m t' sort p rest.
Proof.
  intros G Hne c. pose proof (get_next_move_time _ _ _ _ G) as Ht.
  destruct (get_next_move_outcome st t sort Ht) as [[_ H]|H].
  - rewrite H in G. injection G as <- <-. contradiction.
  - destruct H as (m & p & rest & S & Hm & B & Hq & Hr & G').
    rewrite G' in G. injection G as <- <-.
    exists m, p, rest. repeat split; auto; lia.
Qed.

Lemma move_from_to_distinct (m : Move) : move_from m <> move_to m.
Proof. destruct m; discriminate. Qed.

Lemma qname_eq_dec (a b : qname) : {a = b} + {a <> b}.
Proof. decide equality. Qed.

(** A property of the records of each queue that the moved record has in
    its destination survives the move. *)
Lemma after_move_Forall (Q : qname -> Process -> Prop)
    (st : State) (m : Move) (t : Z) (sort : policy)
    (p : Process) (rest : GQueue) :
  (forall n, Forall (Q n) (queue st n)) ->
  queue st (move_from m) = p :: rest ->
  Q (move_to m) (moved_process m t p) ->
  forall n, Forall (Q n) (queue (after_move st m t sort p rest) n).
Proof.
  intros HQ Hq Hp n.
  destruct (after_move_queues st m t sort p rest) as (Q1 & Q2 & Q3).
  destruct (qname_eq_dec n (move_from m)) as [->|N1].
  - rewrite Q1. specialize (HQ (move_from m)). rewrite Hq in HQ.
    inversion HQ; assumption.
  - destruct (qname_eq_dec n (move_to m)) as [->|N2].
    + eapply Permutation_Forall; [apply Permutation_sym, Q2|].
      apply Forall_app. split; [apply HQ | constructor; [exact Hp | constructor]].
    + rewrite Q3 by assumption. apply HQ.
Qed.

(** ** Conservation of the process records *)

Ltac pull_head :=
  repeat first
    [ apply Permutation_refl
    | etransitivity; [apply Permutation_middle|]; apply Permutation_app_head ].

Lemma processes_remove (st : State) (n : qname) (p : Process) (rest : GQueue) :
  queue st n = p :: rest ->
  Permutation (processes st) (p :: processes (set_queue st n rest)).
Proof.
  unfold processes. intros H. apply Permutation_sym.
  destruct n; simpl in *; rewrite H; simpl; pull_head.
Qed.

Lemma processes_insert (st : State) (n : qname) (x : Process) :
  Permutation (processes (set_queue st n (queue st n ++ [x])))
              (x :: processes st).
Proof.
  unfold processes. apply Permutation_sym.
  destruct n; simpl; rewrite <- ?app_assoc; simpl.
  - pull_head.
  - pull_head.
  - pull_head.
  - pull_head.
  - pull_head. apply Permutation_cons_append.
Qed.

Lemma processes_perm_queue (st : State) (n : qname) (q q' : GQueue) :
  Permutation q q' ->
  Permutation (processes (set_queue st n q)) (processes (set_queue st n q')).
Proof.
  unfold processes. intros H.
  destruct n; simpl;
    repeat first [ apply Permutation_app_tail; exact H
                 | apply Permutation_app_head
                 | exact H ].
Qed.

(** A move takes one record [p] out of the queues and puts its updated
    copy back; every other record is kept as it is. *)
Lemma after_move_processes (st : State) (m : Move) (t : Z) (sort : policy)
    (p : Process) (rest : GQueue) :
  queue st (move_from m) = p :: rest ->
  exists others,
    Permutation (processes st) (p :: others) /\
    Permutation (processes (after_move st m t sort p rest))
                (moved_process m t p :: others).
Proof.
  intros Hq. exists (processes (set_queue st (move_from m) rest)).
  split; [apply processes_remove; exact Hq|].
  set (st1 := set_queue st (move_from m) rest).
  etransitivity; [|apply (processes_insert st1 (move_to m))].
  unfold after_move. fold st1.
  change (processes (write_update ?s _ _ _ _)) with (processes s).
  apply processes_perm_queue.
  destruct (move_to m); try apply Permutation_refl. apply resort_perm.
Qed.

(** ** Well-formed processes *)

(** The clamping of [parse_file] makes every process well formed. *)

Lemma parse_record_wf (r : record6) (junk_ls junk_lio : Z) :
  (let '(pid, start, total, iofreq, iodur, rr) := r in
   in_int start /\ in_int total /\ in_int iofreq /\ in_int iodur /\ in_int rr) ->
  wf_process (parse_record r junk_ls junk_lio).
Proof.
  destruct r as [[[[[i s] tt] f] d] q]. unfold in_int, INT_MIN.
  intros (Hs & Ht & Hf & Hd & Hq).
  unfold wf_process, wf_fields, parse_record, process_new; simpl.
  destruct (Z.leb_spec f 0), (Z.leb_spec d 0), (Z.leb_spec q 0),
    (Z.ltb_spec tt 0), (Z.ltb_spec s 0); unfold INT_MAX in *; lia.
Qed.

(** While a process runs, a quantum or an I/O interval that wins the
    selection has not outlasted the remaining burst. *)
Lemma slice_within_burst (st : State) (t : Z) (p : Process) (rest : GQueue) :
  running st = p :: rest ->
  live p -> 0 <= last_start p <= INT_MAX ->
  let c := sanitize (raw_candidates st t) in
  min_time c < INT_MAX ->
  (time_of c RUNNING_TO_READY = min_time c ->
   rr p <= remaining p /\ min_time c = last_start p + rr p) /\
  (time_of c RUNNING_TO_WAITING = min_time c ->
   iofreq p <= remaining p /\ min_time c = last_start p + iofreq p).
Proof.
  intros Hr (F & R) Hl c Hlt.
  destruct F as (_ & Ht & Hf & _ & Hq).
  pose proof (min_time_le c RUNNING_TO_TERMINATED) as T.
  unfold c in T. rewrite sanitize_time_of in T. simpl in T. rewrite Hr in T.
  rewrite sanitize_int_add in T by lia.
  split; intros E; unfold c in E; rewrite sanitize_time_of in E; simpl in E;
    rewrite Hr in E; rewrite sanitize_int_add in E by lia; fold c in E, T.
  - destruct (Z.leb_spec (last_start p + rr p) INT_MAX);
      destruct (Z.leb_spec (remaining p + last_start p) INT_MAX); lia.
  - destruct (Z.leb_spec (last_start p + iofreq p) INT_MAX);
      destruct (Z.leb_spec (remaining p + last_start p) INT_MAX); lia.
Qed.

Lemma sim_inv_step (sort : policy) (st : State) (t : Z) (st' : State) (t' : Z) :
  sim_inv st ->
  get_next_move st t sort = Some (t', st') ->
  t' <> INVALID_MOVE ->
  sim_inv st'.
Proof.
  intros I G Hne.
  destruct (get_next_move_step st t sort t' st' G Hne)
    as (m & p & rest & _ & Hm & Hmin & B & Hq & _ & ->).
  unfold sim_inv. apply (after_move_Forall burst_inv); [exact I | exact Hq |].
  pose proof (I (move_from m)) as Hp. rewrite Hq in Hp.
  apply Forall_inv in Hp. destruct Hp as (L & Hls & _).
  assert (S : move_from m = QRunning ->
              (m = RUNNING_TO_READY -> rr p <= remaining p) /\
              (m = RUNNING_TO_WAITING -> iofreq p <= remaining p)).
  { intros E. rewrite E in Hq. simpl in Hq.
    pose proof (slice_within_burst st t p rest Hq L (Hls E)) as S.
    cbv zeta in S. rewrite Hmin in S.
    destruct S as (S1 & S2); [lia|].
    split; intros ->; [apply S1 | apply S2]; exact Hm. }
  destruct L as (F & R). unfold burst_inv, live, wf_fields in *.
  destruct m; simpl in S |- *;
    try (destruct (S eq_refl) as (S1 & S2));
    try (specialize (S1 eq_refl)); try (specialize (S2 eq_refl));
    repeat split; intros; try discriminate; try lia;
    rewrite int_sub_exact by lia; lia.
Qed.

Lemma sim_inv_initial (procs : GQueue) :
  Forall wf_process procs -> sim_inv (initial_state procs).
Proof.
  intros H n. destruct n; simpl; try constructor.
  eapply Forall_impl; [|exact H].
  intros p (F & R). unfold burst_inv, live.
  repeat split; try discriminate; try exact F; unfold wf_fields in F; lia.
Qed.

Lemma reachable_sim_inv (sort : policy) (procs : GQueue) (st : State) (t : Z) :
  Forall wf_process procs -> reachable sort procs st t -> sim_inv st.
Proof.
  intros W R. induction R as [|st t st' t' R IH G Hne].
  - apply sim_inv_initial, W.
  - eapply sim_inv_step; eauto.
Qed.

Lemma reachable_time (sort : policy) (procs : GQueue) (st : State) (t : Z) :
  reachable sort procs st t -> 0 <= t < INT_MAX.
Proof.
  intros R. destruct R as [|st t st' t' R G Hne].
  - unfold INITIAL_TIME, INT_MAX. lia.
  - destruct (get_next_move_step st t sort t' st' G Hne)
      as (m & p & rest & _ & _ & _ & B & _). exact B.
Qed.

(** ** Runs of the driver loop *)

Lemma advance_reachable (sort : policy) (procs : GQueue) (n : nat) :
  forall st t st' t',
    reachable sort procs st t ->
    advance n st t sort = Some (t', st') ->
    reachable sort procs st' t'.
Proof.
  induction n as [|n IH]; intros st t st' t' R A; simpl in A.
  - injection A as <- <-. exact R.
  - destruct (get_next_move st t sort) as [[t1 st1]|] eqn:G; [|discriminate].
    cbn [bind] in A. destruct (Z.eqb_spec t1 INVALID_MOVE) as [E|E]; [discriminate|].
    apply (IH st1 t1); [|exact A].
    eapply reach_step; eauto.
Qed.

(** ** The Running queue holds at most one process *)

Lemma running_bound_step (sort : policy) (st : State) (t : Z)
    (st' : State) (t' : Z) :
  (length (running st) <= 1)%nat ->
  get_next_move st t sort = Some (t', st') ->
  t' <> INVALID_MOVE ->
  (length (running st') <= 1)%nat.
Proof.
  intros L G Hne.
  destruct (get_next_move_step st t sort t' st' G Hne)
    as (m & p & rest & _ & _ & _ & _ & Hq & Hr & ->).
  destruct (after_move_queues st m t' sort p rest) as (Q1 & Q2 & Q3).
  change (length (queue (after_move st m t' sort p rest) QRunning) <= 1)%nat.
  change (running st) with (queue st QRunning) in L.
  destruct m; cbn [move_from move_to] in Hq, Q1, Q2, Q3;
    try (rewrite Q3 by discriminate; exact L);
    try (rewrite Q1; rewrite Hq in L; simpl in L; lia).
  apply Permutation_length in Q2. rewrite Q2.
  change (queue st QRunning) with (running st). rewrite (Hr eq_refl).
  simpl. lia.
Qed.

(** C7: in every state the driver loop reaches from an initial state,
    Running holds at most one process; the ready -> running candidate is
    finite only while Running is empty, and ready -> running is the only
    move selected with Running as its destination. *)
Theorem running_queue_bound (sort : policy) (procs : GQueue)
    (st : State) (t : Z) :
  reachable sort procs st t ->
  (length (running st) <= 1)%nat /\
  (forall c, candidate_times st t = Some c ->
             ready_to_running c <> INT_MAX -> running st = []) /\
  (forall c m f d, candidate_times st t = Some c ->
                   select_move c = Some (m, f, d) ->
                   d = QRunning -> m = READY_TO_RUNNING /\ running st = []).
Proof.
  intros R. split; [|split].
  - induction R as [|st t st' t' R IH G Hne]; [simpl; lia|].
    eapply running_bound_step; eauto.
  - intros c C H. rewrite candidate_times_total in C. injection C as <-.
    destruct (running st) eqn:E; [reflexivity|].
    exfalso. apply H. apply busy_cpu_infinite. rewrite E. discriminate.
  - intros c m f d C S ->. rewrite candidate_times_total in C. injection C as <-.
    destruct (selected_source st t m f QRunning S) as (_ & Hd & _ & Hr).
    assert (m = READY_TO_RUNNING) by (destruct m; simpl in Hd; congruence).
    split; [assumption | auto].
Qed.

Lemma running_queue_bound_witness :
  reachable FCFS_SORT demo_procs demo_state 1 /\
  (length (running demo_state) <= 1)%nat /\
  (forall c, candidate_times demo_state 1 = Some c ->
             ready_to_running c <> INT_MAX -> running demo_state = []) /\
  (forall c m f d, candidate_times demo_state 1 = Some c ->
                   select_move c = Some (m, f, d) ->
                   d = QRunning ->
                   m = READY_TO_RUNNING /\ running demo_state = []).
Proof.
  assert (R : reachable FCFS_SORT demo_procs demo_state 1).
  { apply (advance_reachable FCFS_SORT demo_procs 3
             (initial_state demo_procs) INITIAL_TIME);
      [apply reach_init | vm_compute; reflexivity]. }
  split; [exact R | apply (running_queue_bound FCFS_SORT demo_procs); exact R].
Defined.

(** ** Events at [INT_MAX] *)

Lemma moved_process_static (m : Move) (t : Z) (p : Process) :
  pid (moved_process m t p) = pid p /\
  start (moved_process m t p) = start p /\
  total (moved_process m t p) = total p /\
  iofreq (moved_process m t p) = iofreq p /\
  iodur (moved_process m t p) = iodur p /\
  rr (moved_process m t p) = rr p.
Proof. destruct m; repeat split. Qed.

Lemma sentinel_inv_step (sort : policy) (procs : GQueue) (st : State) (t : Z)
    (st' : State) (t' : Z) :
  sentinel_inv procs st ->
  get_next_move st t sort = Some (t', st') ->
  t' <> INVALID_MOVE ->
  sentinel_inv procs st'.
Proof.
  intros (IQ & IT & (pre & IP & IF)) G Hne.
  destruct (get_next_move_step st t sort t' st' G Hne)
    as (m & p & rest & _ & Hm & _ & B & Hq & _ & ->).
  assert (Hs : start p <> INT_MAX).
  { destruct (qname_eq_dec (move_from m) QAll) as [E|E].
    - assert (m = NEW_TO_READY) by (destruct m; simpl in E; congruence).
      subst m. simpl in Hq. intros S.
      rewrite sanitize_time_of in Hm. simpl in Hm. rewrite Hq, S in Hm.
      rewrite sanitize_INT_MAX in Hm. lia.
    - pose proof (IQ (move_from m)) as H. rewrite Hq in H.
      apply Forall_inv in H. apply H, E. }
  split; [|split].
  - apply (after_move_Forall arrived_inv); [exact IQ | exact Hq |].
    intros _. destruct (moved_process_static m t' p) as (_ & -> & _). exact Hs.
  - rewrite after_move_trace. apply Forall_app. split; [exact IT|].
    constructor; [simpl; exact B | constructor].
  - destruct (qname_eq_dec (move_from m) QAll) as [E|E].
    + assert (m = NEW_TO_READY) by (destruct m; simpl in E; congruence).
      subst m. simpl in Hq. exists (pre ++ [p]). simpl. split.
      * rewrite <- app_assoc. simpl. rewrite <- Hq. exact IP.
      * apply Forall_app. split; [exact IF | constructor; [exact Hs | constructor]].
    + exists pre. split; [|exact IF].
      destruct (after_move_queues st m t' sort p rest) as (_ & _ & Q3).
      assert (E' : QAll <> move_to m) by (destruct m; discriminate).
      change (all (after_move st m t' sort p rest))
        with (queue (after_move st m t' sort p rest) QAll).
      rewrite Q3 by congruence. exact IP.
Qed.

Lemma reachable_sentinel_inv (sort : policy) (procs : GQueue)
    (st : State) (t : Z) :
  reachable sort procs st t -> sentinel_inv procs st.
Proof.
  intros R. induction R as [|st t st' t' R IH G Hne].
  - split; [|split].
    + intros n. destruct n; simpl; try constructor.
      apply Forall_forall. intros p _ H. congruence.
    + constructor.
    + exists []. split; [reflexivity | constructor].
  - eapply sentinel_inv_step; eauto.
Qed.

(** C10: when the minimum of the six candidates is [INT_MAX] the call
    returns [INVALID_MOVE] and leaves the queues and the trace as they
    were, also when the head of New has arrival time [INT_MAX]: its
    candidate is [INT_MAX] and new -> ready is not selected.  In every
    state of a run no trace line carries the time [INT_MAX], and a
    process of the input with arrival time [INT_MAX] is still in New and
    in no other queue. *)
Theorem int_max_event_never_fires (sort : policy) (procs : GQueue)
    (st : State) (t : Z) :
  reachable sort procs st t ->
  (forall c, candidate_times st t = Some c -> min_time c = INT_MAX ->
             get_next_move st t sort = Some (INVALID_MOVE, st)) /\
  (forall p rest c, all st = p :: rest -> start p = INT_MAX ->
                    candidate_times st t = Some c ->
                    all_to_ready c = INT_MAX /\
                    forall f d, select_move c <> Some (NEW_TO_READY, f, d)) /\
  Forall (fun l => 0 <= line_time l < INT_MAX) (trace st) /\
  (forall p, In p procs -> start p = INT_MAX ->
             In p (all st) /\
             ~ In p (ready st ++ running st ++ waiting st ++ terminated st)).
Proof.
  intros R. pose proof (reachable_time _ _ _ _ R) as Ht.
  destruct (reachable_sentinel_inv _ _ _ _ R) as (IQ & IT & (pre & IP & IF)).
  split; [|split; [|split]].
  - intros c C Hmin. rewrite candidate_times_total in C. injection C as <-.
    destruct (get_next_move_outcome st t sort (proj1 Ht)) as [[_ H]|H]; [exact H|].
    destruct H as (m & p & rest & _ & _ & B & _). lia.
  - intros p rest c Ha Hs C. rewrite candidate_times_total in C. injection C as <-.
    assert (E : all_to_ready (sanitize (raw_candidates st t)) = INT_MAX).
    { simpl. rewrite Ha, Hs. reflexivity. }
    split; [exact E|]. intros f d S. apply select_move_some in S.
    destruct S as (_ & _ & Hm & Hne). cbn [time_of] in Hm. congruence.
  - exact IT.
  - intros p I Hs. split.
    + rewrite IP in I. apply in_app_or in I. destruct I as [I|I]; [|exact I].
      rewrite Forall_forall in IF. apply IF in I. contradiction.
    + intros J. rewrite !in_app_iff in J.
      assert (H : exists n, n <> QAll /\ In p (queue st n)).
      { destruct J as [J|[J|[J|J]]];
          [exists QReady | exists QRunning | exists QWaiting | exists QTerminated];
          (split; [discriminate | exact J]). }
      destruct H as (n & Hn & Hin).
      pose proof (IQ n) as F. rewrite Forall_forall in F.
      apply (F p Hin Hn Hs).
Qed.

Lemma int_max_event_never_fires_witness :
  reachable FCFS_SORT late_procs late_state 3 /\
  (forall c, candidate_times late_state 3 = Some c -> min_time c = INT_MAX ->
             get_next_move late_state 3 FCFS_SORT = Some (INVALID_MOVE, late_state)) /\
  (forall p rest c, all late_state = p :: rest -> start p = INT_MAX ->
                    candidate_times late_state 3 = Some c ->
                    all_to_ready c = INT_MAX /\
                    forall f d, select_move c <> Some (NEW_TO_READY, f, d)) /\
  Forall (fun l => 0 <= line_time l < INT_MAX) (trace late_state) /\
  (forall p, In p late_procs -> start p = INT_MAX ->
             In p (all late_state) /\
             ~ In p (ready late_state ++ running late_state ++
                     waiting late_state ++ terminated late_state)).
Proof.
  assert (R : reachable FCFS_SORT late_procs late_state 3).
  { apply (advance_reachable FCFS_SORT late_procs 3
             (initial_state late_procs) INITIAL_TIME);
      [apply reach_init | vm_compute; reflexivity]. }
  split; [exact R | apply (int_max_event_never_fires FCFS_SORT late_procs); exact R].
Defined.

(** In [late_state] process 2 has terminated, process 1 is still the
    head of New, and the loop of [main] stops there. *)
Example late_process_never_scheduled :
  map pid (all late_state) = [1] /\
  map pid (terminated late_state) = [2] /\
  get_next_move late_state 3 FCFS_SORT = Some (INVALID_MOVE, late_state).
Proof. repeat split. Qed.

(** ** The remaining burst *)

Lemma io_tie_procs_wf : Forall wf_process io_tie_procs.
Proof.
  repeat constructor; simpl; unfold INT_MAX; lia.
Qed.

Lemma io_tie_state_reachable : reachable FCFS_SORT io_tie_procs io_tie_state 2.
Proof.
  apply (advance_reachable FCFS_SORT io_tie_procs 3
           (initial_state io_tie_procs) INITIAL_TIME);
    [apply reach_init | vm_compute; reflexivity].
Qed.

(** C8 as stated fails: with I/O interval 2 and total burst 2, the
    running -> waiting move at time 2 wins the tie against
    running -> terminated; the process is in Waiting with remaining
    burst 0 and Terminated is empty. *)
Lemma remaining_zero_before_termination :
  Forall wf_process io_tie_procs /\
  reachable FCFS_SORT io_tie_procs io_tie_state 2 /\
  exists p, waiting io_tie_state = [p] /\ remaining p = 0 /\
            terminated io_tie_state = [] /\
            trace io_tie_state =
            [mkLine 0 1 NEW_STATE READY_STATE;
             mkLine 0 1 READY_STATE RUNNING_STATE;
             mkLine 2 1 RUNNING_STATE WAITING_STATE].
Proof.
  split; [exact io_tie_procs_wf|]. split; [exact io_tie_state_reachable|].
  eexists. repeat split.
Qed.

(** C8, amended: [process_new] sets [remaining] to [total]; in every
    state of a run on well-formed processes each record has
    [0 <= remaining <= total] and each record of Terminated has
    [remaining = 0]; a step of the loop replaces one record by its
    updated copy, with the same pid and total burst and a remaining
    burst that is not larger, and keeps every other record. *)
Theorem remaining_burst_invariant (sort : policy) (procs : GQueue)
    (st : State) (t : Z) :
  Forall wf_process procs ->
  reachable sort procs st t ->
  (forall i s b f d q j1 j2,
      remaining (process_new i s b f d q j1 j2) =
      total (process_new i s b f d q j1 j2)) /\
  Forall (fun p => 0 <= remaining p <= total p) (processes st) /\
  Forall (fun p => remaining p = 0) (terminated st) /\
  (forall t' st',
      get_next_move st t sort = Some (t', st') -> t' <> INVALID_MOVE ->
      exists p p' others,
        Permutation (processes st) (p :: others) /\
        Permutation (processes st') (p' :: others) /\
        pid p' = pid p /\ total p' = total p /\
        remaining p' <= remaining p).
Proof.
  intros W R. pose proof (reachable_sim_inv sort procs st t W R) as I.
  split; [reflexivity|]. split; [|split].
  - unfold processes. rewrite !Forall_app.
    repeat split;
      [ pose proof (I QAll) as H | pose proof (I QReady) as H
      | pose proof (I QRunning) as H | pose proof (I QWaiting) as H
      | pose proof (I QTerminated) as H ];
      simpl in H; (eapply Forall_impl; [|exact H]);
      intros p ((_ & L) & _); exact L.
  - pose proof (I QTerminated) as H. simpl in H.
    eapply Forall_impl; [|exact H]. intros p (_ & _ & _ & Z0). auto.
  - intros t' st' G Hne.
    pose proof (sim_inv_step sort st t st' t' I G Hne) as I'.
    destruct (get_next_move_step st t sort t' st' G Hne)
      as (m & p & rest & _ & _ & _ & _ & Hq & _ & ->).
    destruct (after_move_processes st m t' sort p rest Hq) as (others & P1 & P2).
    exists p, (moved_process m t' p), others.
    destruct (moved_process_static m t' p) as (Hpid & _ & Htot & _).
    repeat split; auto.
    pose proof (I (move_from m)) as Hp. rewrite Hq in Hp.
    apply Forall_inv in Hp. destruct Hp as ((F & L) & Hls & _).
    pose proof (I' (move_to m)) as Hd.
    destruct (after_move_queues st m t' sort p rest) as (_ & Q2 & _).
    apply (Permutation_Forall Q2) in Hd. apply Forall_app in Hd.
    destruct Hd as (_ & Hd). apply Forall_inv in Hd.
    destruct Hd as ((F' & L') & _).
    unfold wf_fields in F.
    destruct m; simpl in L' |- *; try lia.
    + revert L'. unfold int_sub.
      pose proof (wrap_in_int (remaining p - iofreq p)).
      intros L'.
      destruct (Z_le_gt_dec (iofreq p) (remaining p)) as [Hle|Hgt].
      * rewrite wrap_id in * by (unfold in_int, INT_MIN, INT_MAX in *; lia). lia.
      * rewrite wrap_id in L' by (unfold in_int, INT_MIN, INT_MAX in *; lia). lia.
    + revert L'. unfold int_sub. intros L'.
      destruct (Z_le_gt_dec (rr p) (remaining p)) as [Hle|Hgt].
      * rewrite wrap_id in * by (unfold in_int, INT_MIN, INT_MAX in *; lia). lia.
      * rewrite wrap_id in L' by (unfold in_int, INT_MIN, INT_MAX in *; lia). lia.
Qed.

Lemma remaining_burst_invariant_witness :
  Forall wf_process io_tie_procs /\
  reachable FCFS_SORT io_tie_procs io_tie_state 2 /\
  (forall i s b f d q j1 j2,
      remaining (process_new i s b f d q j1 j2) =
      total (process_new i s b f d q j1 j2)) /\
  Forall (fun p => 0 <= remaining p <= total p) (processes io_tie_state) /\
  Forall (fun p => remaining p = 0) (terminated io_tie_state) /\
  (forall t' st',
      get_next_move io_tie_state 2 FCFS_SORT = Some (t', st') ->
      t' <> INVALID_MOVE ->
      exists p p' others,
        Permutation (processes io_tie_state) (p :: others) /\
        Permutation (processes st') (p' :: others) /\
        pid p' = pid p /\ total p' = total p /\
        remaining p' <= remaining p).
Proof.
  split; [exact io_tie_procs_wf|]. split; [exact io_tie_state_reachable|].
  apply (remaining_burst_invariant FCFS_SORT io_tie_procs io_tie_state 2
           io_tie_procs_wf io_tie_state_reachable).
Defined.

(** ** The running -> waiting candidate *)

Lemma big_io_procs_wf : Forall wf_process big_io_procs.
Proof.
  repeat constructor; simpl; unfold INT_MAX; lia.
Qed.

Lemma big_io_state_reachable : reachable FCFS_SORT big_io_procs big_io_state 5.
Proof.
  apply (advance_reachable FCFS_SORT big_io_procs 2
           (initial_state big_io_procs) INITIAL_TIME);
    [apply reach_init | vm_compute; reflexivity].
Qed.

(** C2 as stated fails: the process runs since time 5 with the finite
    I/O interval [INT_MAX - 1]; the sum wraps to a negative value and the
    running -> waiting candidate is clamped to [INT_MAX]. *)
Lemma finite_io_interval_not_applicable :
  Forall wf_process big_io_procs /\
  reachable FCFS_SORT big_io_procs big_io_state 5 /\
  exists p c,
    running big_io_state = [p] /\
    last_start p = 5 /\ iofreq p = 2147483646 /\ iofreq p <> INT_MAX /\
    raw_times big_io_state 5 = Some c /\
    running_to_waiting c = -2147483645 /\
    running_to_waiting (sanitize c) = INT_MAX /\
    candidate_times big_io_state 5 = Some (sanitize c).
Proof.
  split; [exact big_io_procs_wf|]. split; [exact big_io_state_reachable|].
  eexists. eexists. repeat split. discriminate.
Qed.

(** C2, amended: in a state of a run on well-formed processes, the
    running -> waiting candidate is finite if and only if Running is
    non-empty and [last_start + iofreq] of the running process is below
    [INT_MAX]; a finite candidate equals [last_start + iofreq] and its
    [iofreq] is not the sentinel; when [iofreq] is [INT_MAX] the
    candidate is [INT_MAX] and running -> waiting is not selected. *)
Theorem running_to_waiting_candidate (sort : policy) (procs : GQueue)
    (st : State) (t : Z) :
  Forall wf_process procs ->
  reachable sort procs st t ->
  exists c, candidate_times st t = Some c /\
    (running_to_waiting c <> INT_MAX <->
     exists p rest, running st = p :: rest /\
                    last_start p + iofreq p < INT_MAX) /\
    (forall p rest, running st = p :: rest ->
                    running_to_waiting c <> INT_MAX ->
                    iofreq p <> INT_MAX /\
                    running_to_waiting c = last_start p + iofreq p) /\
    (forall p rest, running st = p :: rest -> iofreq p = INT_MAX ->
                    running_to_waiting c = INT_MAX /\
                    forall f d, select_move c <> Some (RUNNING_TO_WAITING, f, d)).
Proof.
  intros W R. pose proof (reachable_sim_inv sort procs st t W R QRunning) as I.
  exists (sanitize (raw_candidates st t)).
  split; [apply candidate_times_total|].
  assert (K : forall p rest, running st = p :: rest ->
              running_to_waiting (sanitize (raw_candidates st t)) =
              (if last_start p + iofreq p <=? INT_MAX
               then last_start p + iofreq p else INT_MAX) /\
              0 <= last_start p /\ 0 < iofreq p <= INT_MAX).
  { intros p rest E. simpl in I. rewrite E in I. apply Forall_inv in I.
    destruct I as ((F & _) & Hls & _). specialize (Hls eq_refl).
    unfold wf_fields in F. simpl. rewrite E.
    rewrite sanitize_int_add by lia. repeat split; lia. }
  split; [|split].
  - split.
    + intros H. destruct (running st) as [|p rest] eqn:E.
      * exfalso. apply H. simpl. rewrite E. reflexivity.
      * exists p, rest. split; [reflexivity|].
        destruct (K p rest eq_refl) as (V & _). rewrite V in H.
        destruct (Z.leb_spec (last_start p + iofreq p) INT_MAX); lia.
    + intros (p & rest & E & L). destruct (K p rest E) as (V & _). rewrite V.
      destruct (Z.leb_spec (last_start p + iofreq p) INT_MAX); lia.
  - intros p rest E H. destruct (K p rest E) as (V & B). rewrite V in *.
    destruct (Z.leb_spec (last_start p + iofreq p) INT_MAX); lia.
  - intros p rest E H. destruct (K p rest E) as (V & B).
    assert (V' : running_to_waiting (sanitize (raw_candidates st t)) = INT_MAX).
    { rewrite V. destruct (Z.leb_spec (last_start p + iofreq p) INT_MAX); lia. }
    split; [exact V'|]. intros f d S. apply select_move_some in S.
    destruct S as (_ & _ & Hm & Hne). cbn [time_of] in Hm. congruence.
Qed.

Lemma running_to_waiting_candidate_witness :
  Forall wf_process big_io_procs /\
  reachable FCFS_SORT big_io_procs big_io_state 5 /\
  exists c, candidate_times big_io_state 5 = Some c /\
    (running_to_waiting c <> INT_MAX <->
     exists p rest, running big_io_state = p :: rest /\
                    last_start p + iofreq p < INT_MAX) /\
    (forall p rest, running big_io_state = p :: rest ->
                    running_to_waiting c <> INT_MAX ->
                    iofreq p <> INT_MAX /\
                    running_to_waiting c = last_start p + iofreq p) /\
    (forall p rest, running big_io_state = p :: rest -> iofreq p = INT_MAX ->
                    running_to_waiting c = INT_MAX /\
                    forall f d, select_move c <> Some (RUNNING_TO_WAITING, f, d)).
Proof.
  split; [exact big_io_procs_wf|]. split; [exact big_io_state_reachable|].
  apply (running_to_waiting_candidate FCFS_SORT big_io_procs big_io_state 5
           big_io_procs_wf big_io_state_reachable).
Defined.

(** ** Symbolic execution of one call *)

Lemma get_next_move_fires (st : State) (t : Z) (sort : policy) (m : Move)
    (p : Process) (rest : GQueue) (v : Z) :
  0 <= t ->
  min_time (sanitize (raw_candidates st t)) = v ->
  v <> INT_MAX ->
  find (fun m => v =? time_of (sanitize (raw_candidates st t)) m) tie_order
    = Some m ->
  queue st (move_from m) = p :: rest ->
  get_next_move st t sort = Some (v, after_move st m v sort p rest).
Proof.
  intros Ht Hv Hne F Hq.
  destruct (get_next_move_outcome st t sort Ht) as [[H _]|H]; [congruence|].
  destruct H as (m' & p' & rest' & S & _ & _ & Hq' & _ & G).
  rewrite select_move_find in S. rewrite Hv in *.
  apply Z.eqb_neq in Hne. rewrite Hne, F in S. simpl in S.
  assert (m' = m) by congruence. subst m'.
  rewrite Hq in Hq'. injection Hq' as <- <-. exact G.
Qed.

Lemma advance_snoc (sort : policy) (n : nat) :
  forall st t st1 t1 st2 t2,
    advance n st t sort = Some (t1, st1) ->
    get_next_move st1 t1 sort = Some (t2, st2) ->
    t2 <> INVALID_MOVE ->
    advance (S n) st t sort = Some (t2, st2).
Proof.
  induction n as [|n IH]; intros st t st1 t1 st2 t2 A G Hne.
  - simpl in A. injection A as <- <-. simpl. rewrite G. cbn [bind].
    apply Z.eqb_neq in Hne. rewrite Hne. reflexivity.
  - change (advance (S n) st t sort) with
      (r <- get_next_move st t sort;;
       let '(t', st') := r in
       if t' =? INVALID_MOVE then None else advance n st' t' sort) in A.
    change (advance (S (S n)) st t sort) with
      (r <- get_next_move st t sort;;
       let '(t', st') := r in
       if t' =? INVALID_MOVE then None else advance (S n) st' t' sort).
    destruct (get_next_move st t sort) as [[t0 st0]|]; [|discriminate].
    cbn [bind] in *. destruct (t0 =? INVALID_MOVE); [discriminate|].
    eapply IH; eauto.
Qed.

Lemma resort_single (sort : policy) (x : Process) : resort sort [x] = [x].
Proof. destruct sort; reflexivity. Qed.

Ltac split_tests :=
  repeat (match goal with
          | |- context [?a <=? ?b] => destruct (Z.leb_spec a b)
          | |- context [?a <? ?b] => destruct (Z.ltb_spec a b)
          | |- context [?a =? ?b] => destruct (Z.eqb_spec a b)
          | H : context [?a <=? ?b] |- _ => destruct (Z.leb_spec a b)
          | H : context [?a <? ?b] |- _ => destruct (Z.ltb_spec a b)
          | H : context [?a =? ?b] |- _ => destruct (Z.eqb_spec a b)
          end; cbv beta iota in *; try lia).

Ltac candidates :=
  repeat match goal with x := _ : Process |- _ => subst x end;
  cbn [find tie_order];
  unfold raw_candidates, sanitize, min_time, time_of;
  cbn [all ready running waiting terminated
       all_to_ready ready_to_running running_to_terminated running_to_waiting
       waiting_to_ready running_to_ready
       start remaining last_start last_io_start iodur iofreq rr];
  rewrite ?sanitize_int_add by (unfold INT_MAX in *; lia);
  rewrite ?MAX_spec, ?MIN_spec; unfold sanitize_time;
  unfold INT_MAX in *.

Ltac fire m p rest v :=
  rewrite (get_next_move_fires _ _ _ m p rest v);
  [ unfold after_move, write_update;
    cbn [move_from move_to set_queue queue moved_process
         all ready running waiting terminated trace old_state new_state app];
    unfold with_last_start, with_remaining, with_last_io_start;
    cbn [pid start total iofreq iodur remaining last_start last_io_start rr];
    rewrite ?resort_single
  | try (unfold INITIAL_TIME); lia
  | candidates; split_tests
  | unfold INT_MAX in *; lia
  | candidates; split_tests; reflexivity
  | reflexivity ].

(** ** The I/O cycle *)

(** The scenario of the I/O cycle: one process with I/O interval 2 and
    total burst 10, arriving at [a], with I/O duration [d] and no
    quantum. *)
Lemma io_cycle (i a d j1 j2 : Z) (sort : policy) :
  0 <= a -> 0 < d -> a + 2 + d < INT_MAX ->
  let st0 := load [((i, a, 10, 2, d, 0), (j1, j2))] in
  let p3 := mkProcess i a 10 2 d 8 a (a + 2) INT_MAX in
  advance 3 st0 INITIAL_TIME sort =
    Some (a + 2,
          mkState [] [] [] [p3] []
            [mkLine a i NEW_STATE READY_STATE;
             mkLine a i READY_STATE RUNNING_STATE;
             mkLine (a + 2) i RUNNING_STATE WAITING_STATE]) /\
  advance 4 st0 INITIAL_TIME sort =
    Some (a + 2 + d,
          mkState [] [p3] [] [] []
            [mkLine a i NEW_STATE READY_STATE;
             mkLine a i READY_STATE RUNNING_STATE;
             mkLine (a + 2) i RUNNING_STATE WAITING_STATE;
             mkLine (a + 2 + d) i WAITING_STATE READY_STATE]).
Proof.
  intros Ha Hd Hb st0 p3.
  set (p0 := mkProcess i a 10 2 d 10 j1 j2 INT_MAX).
  assert (E0 : st0 = mkState [p0] [] [] [] [] []).
  { unfold st0, load, parse_file, parse_records, parse_record, process_new,
      g_queue_push_head, initial_state.
    destruct (Z.ltb_spec a 0); [lia|]. destruct (Z.leb_spec d 0); [lia|].
    reflexivity. }
  rewrite E0. clear E0 st0.
  assert (N : forall v, 0 <= v -> (v =? INVALID_MOVE) = false).
  { intros v Hv. apply Z.eqb_neq. unfold INVALID_MOVE. lia. }
  assert (S3 : advance 3 (mkState [p0] [] [] [] [] []) INITIAL_TIME sort =
    Some (a + 2,
          mkState [] [] [] [p3] []
            [mkLine a i NEW_STATE READY_STATE;
             mkLine a i READY_STATE RUNNING_STATE;
             mkLine (a + 2) i RUNNING_STATE WAITING_STATE])).
  { unfold advance.
    fire NEW_TO_READY p0 (@nil Process) a.
    cbn [bind]. rewrite N by lia.
    fire READY_TO_RUNNING p0 (@nil Process) a.
    cbn [bind]. rewrite N by lia.
    fire RUNNING_TO_WAITING (with_last_start p0 a) (@nil Process) (a + 2).
    cbn [bind]. rewrite N by lia. reflexivity. }
  split; [exact S3|].
  eapply advance_snoc; [exact S3 | | unfold INVALID_MOVE; lia].
  fire WAITING_TO_READY p3 (@nil Process) (a + 2 + d).
  reflexivity.
Qed.

(** C5: in a run on well-formed processes, when running -> waiting is
    the selected move the call moves the running process to the tail of
    Waiting with its remaining burst decreased by exactly its I/O
    interval and its [last_io_start] set to the event time, which is
    [last_start + iofreq]; when waiting -> ready is the selected move its
    event time is [last_io_start + iodur] of the head of Waiting.  For a
    single process with I/O interval 2 and total burst 10 arriving at
    [a], the third move puts it in Waiting at [a + 2] with remaining
    burst 8 and the fourth returns it to Ready at [a + 2 + d]. *)
Theorem running_to_waiting_bookkeeping :
  (forall sort procs st t c f d,
      Forall wf_process procs -> reachable sort procs st t ->
      candidate_times st t = Some c ->
      select_move c = Some (RUNNING_TO_WAITING, f, d) ->
      exists p rest,
        running st = p :: rest /\
        min_time c = last_start p + iofreq p /\
        get_next_move st t sort =
        Some (min_time c,
              mkState (all st) (ready st) rest
                (waiting st ++
                   [mkProcess (pid p) (start p) (total p) (iofreq p) (iodur p)
                      (remaining p - iofreq p) (last_start p) (min_time c)
                      (rr p)])
                (terminated st)
                (trace st ++
                   [mkLine (min_time c) (pid p) RUNNING_STATE WAITING_STATE]))) /\
  (forall sort procs st t c f d,
      Forall wf_process procs -> reachable sort procs st t ->
      candidate_times st t = Some c ->
      select_move c = Some (WAITING_TO_READY, f, d) ->
      exists p rest,
        waiting st = p :: rest /\
        min_time c = last_io_start p + iodur p /\
        get_next_move st t sort =
        Some (min_time c,
              mkState (all st) (resort sort (ready st ++ [p])) (running st) rest
                (terminated st)
                (trace st ++
                   [mkLine (min_time c) (pid p) WAITING_STATE READY_STATE]))) /\
  (forall i a d j1 j2 sort,
      0 <= a -> 0 < d -> a + 2 + d < INT_MAX ->
      let st0 := load [((i, a, 10, 2, d, 0), (j1, j2))] in
      let p3 := mkProcess i a 10 2 d 8 a (a + 2) INT_MAX in
      advance 3 st0 INITIAL_TIME sort =
        Some (a + 2,
              mkState [] [] [] [p3] []
                [mkLine a i NEW_STATE READY_STATE;
                 mkLine a i READY_STATE RUNNING_STATE;
                 mkLine (a + 2) i RUNNING_STATE WAITING_STATE]) /\
      advance 4 st0 INITIAL_TIME sort =
        Some (a + 2 + d,
              mkState [] [p3] [] [] []
                [mkLine a i NEW_STATE READY_STATE;
                 mkLine a i READY_STATE RUNNING_STATE;
                 mkLine (a + 2) i RUNNING_STATE WAITING_STATE;
                 mkLine (a + 2 + d) i WAITING_STATE READY_STATE])).
Proof.
  split; [|split].
  - intros sort procs st t c f d W R C S.
    rewrite candidate_times_total in C. injection C as <-.
    pose proof (reachable_sim_inv sort procs st t W R QRunning) as I.
    pose proof (reachable_time sort procs st t R) as Ht.
    destruct (get_next_move_outcome st t sort (proj1 Ht)) as [[H _]|H].
    { apply select_move_none in H. congruence. }
    destruct H as (m & p & rest & S' & Hm & B & Hq & _ & G).
    assert (m = RUNNING_TO_WAITING) by congruence. subst m.
    simpl in Hq. exists p, rest. split; [exact Hq|].
    simpl in I. rewrite Hq in I. apply Forall_inv in I.
    destruct I as (L & Hls & _).
    pose proof (slice_within_burst st t p rest Hq L (Hls eq_refl)) as K.
    cbv zeta in K. destruct K as (_ & K); [lia|].
    destruct (K Hm) as (K1 & K2). split; [exact K2|].
    rewrite G. unfold after_move, write_update. simpl.
    destruct L as (F & Rm). unfold wf_fields in F.
    unfold with_last_io_start, with_remaining. simpl.
    rewrite int_sub_exact by lia. reflexivity.
  - intros sort procs st t c f d W R C S.
    rewrite candidate_times_total in C. injection C as <-.
    pose proof (reachable_sim_inv sort procs st t W R QWaiting) as I.
    pose proof (reachable_time sort procs st t R) as Ht.
    destruct (get_next_move_outcome st t sort (proj1 Ht)) as [[H _]|H].
    { apply select_move_none in H. congruence. }
    destruct H as (m & p & rest & S' & Hm & B & Hq & _ & G).
    assert (m = WAITING_TO_READY) by congruence. subst m.
    simpl in Hq. exists p, rest. split; [exact Hq|].
    simpl in I. rewrite Hq in I. apply Forall_inv in I.
    destruct I as ((F & _) & _ & Hlio & _). specialize (Hlio eq_refl).
    unfold wf_fields in F. split.
    + rewrite sanitize_time_of in Hm. simpl in Hm. rewrite Hq in Hm.
      rewrite sanitize_int_add in Hm by lia.
      destruct (Z.leb_spec (last_io_start p + iodur p) INT_MAX); lia.
    + rewrite G. reflexivity.
  - intros. apply io_cycle; assumption.
Qed.

Lemma io_tie_running_reachable :
  reachable FCFS_SORT io_tie_procs io_tie_running 0.
Proof.
  apply (advance_reachable FCFS_SORT io_tie_procs 2
           (initial_state io_tie_procs) INITIAL_TIME);
    [apply reach_init | vm_compute; reflexivity].
Qed.

Lemma running_to_waiting_bookkeeping_witness :
  (exists p rest,
      running io_tie_running = p :: rest /\
      min_time io_tie_running_times = last_start p + iofreq p /\
      get_next_move io_tie_running 0 FCFS_SORT =
      Some (min_time io_tie_running_times,
            mkState (all io_tie_running) (ready io_tie_running) rest
              (waiting io_tie_running ++
                 [mkProcess (pid p) (start p) (total p) (iofreq p) (iodur p)
                    (remaining p - iofreq p) (last_start p)
                    (min_time io_tie_running_times) (rr p)])
              (terminated io_tie_running)
              (trace io_tie_running ++
                 [mkLine (min_time io_tie_running_times) (pid p)
                    RUNNING_STATE WAITING_STATE]))) /\
  (exists p rest,
      waiting io_tie_state = p :: rest /\
      min_time io_tie_state_times = last_io_start p + iodur p /\
      get_next_move io_tie_state 2 SJF_SORT =
      Some (min_time io_tie_state_times,
            mkState (all io_tie_state)
              (resort SJF_SORT (ready io_tie_state ++ [p]))
              (running io_tie_state) rest (terminated io_tie_state)
              (trace io_tie_state ++
                 [mkLine (min_time io_tie_state_times) (pid p)
                    WAITING_STATE READY_STATE]))) /\
  (0 <= 0 /\ 0 < 3 /\ 0 + 2 + 3 < INT_MAX) /\
  advance 3 (load [((1, 0, 10, 2, 3, 0), (0, 0))]) INITIAL_TIME FCFS_SORT =
    Some (0 + 2,
          mkState [] [] [] [mkProcess 1 0 10 2 3 8 0 (0 + 2) INT_MAX] []
            [mkLine 0 1 NEW_STATE READY_STATE;
             mkLine 0 1 READY_STATE RUNNING_STATE;
             mkLine (0 + 2) 1 RUNNING_STATE WAITING_STATE]) /\
  advance 4 (load [((1, 0, 10, 2, 3, 0), (0, 0))]) INITIAL_TIME FCFS_SORT =
    Some (0 + 2 + 3,
          mkState [] [mkProcess 1 0 10 2 3 8 0 (0 + 2) INT_MAX] [] [] []
            [mkLine 0 1 NEW_STATE READY_STATE;
             mkLine 0 1 READY_STATE RUNNING_STATE;
             mkLine (0 + 2) 1 RUNNING_STATE WAITING_STATE;
             mkLine (0 + 2 + 3) 1 WAITING_STATE READY_STATE]).
Proof.
  assert (H : 0 <= 0 /\ 0 < 3 /\ 0 + 2 + 3 < INT_MAX)
    by (unfold INT_MAX; lia).
  split; [|split; [|split; [exact H|]]].
  - apply (proj1 running_to_waiting_bookkeeping
             FCFS_SORT io_tie_procs io_tie_running 0 io_tie_running_times
             QRunning QWaiting io_tie_procs_wf io_tie_running_reachable);
      reflexivity.
  - apply (proj1 (proj2 running_to_waiting_bookkeeping)
             SJF_SORT io_tie_procs io_tie_state 2 io_tie_state_times
             QWaiting QReady io_tie_procs_wf);
      [|reflexivity|reflexivity].
    apply (advance_reachable SJF_SORT io_tie_procs 3
             (initial_state io_tie_procs) INITIAL_TIME);
      [apply reach_init | vm_compute; reflexivity].
  - destruct H as (H1 & H2 & H3).
    exact (proj2 (proj2 running_to_waiting_bookkeeping)
             1 0 3 0 0 FCFS_SORT H1 H2 H3).
Defined.

(** ** Re-sorting of the Ready queue *)

Section SortedByKey.

Variable P : Process -> Prop.
Variable key : Process -> Z.
Variable cmp : Process -> Process -> Z.
Hypothesis cmp_key :
  forall a b, P a -> P b -> (cmp a b <= 0 <-> key a <= key b).

Lemma g_list_sort_merge_HdRel (x : Process) (l1 l2 : list Process) :
  HdRel (key_le key) x l1 -> HdRel (key_le key) x l2 ->
  HdRel (key_le key) x (g_list_sort_merge cmp l1 l2).
Proof.
  intros H1 H2. destruct l1 as [|a l1]; destruct l2 as [|b l2]; simpl; auto.
  destruct (cmp a b <=? 0); constructor.
  - inversion H1; assumption.
  - inversion H2; assumption.
Qed.

Lemma g_list_sort_merge_sorted (l1 l2 : list Process) :
  Forall P l1 -> Forall P l2 ->
  Sorted (key_le key) l1 -> Sorted (key_le key) l2 ->
  Sorted (key_le key) (g_list_sort_merge cmp l1 l2).
Proof.
  revert l2. induction l1 as [|a l1 IH1]; intros l2 P1 P2 S1 S2.
  - destruct l2; simpl; assumption.
  - induction l2 as [|b l2 IH2]; [simpl; assumption|].
    inversion P1 as [|? ? Pa P1']; inversion P2 as [|? ? Pb P2']; subst.
    simpl. destruct (Z.leb_spec (cmp a b) 0) as [L|L].
    + apply (cmp_key a b Pa Pb) in L. inversion S1; subst. constructor.
      * apply IH1; assumption.
      * apply g_list_sort_merge_HdRel; [assumption|].
        constructor. exact L.
    + assert (key b <= key a).
      { destruct (Z_le_gt_dec (key a) (key b)) as [K|K]; [|lia].
        apply (cmp_key a b Pa Pb) in K. lia. }
      inversion S2; subst. constructor.
      * apply IH2; assumption.
      * change (HdRel (key_le key) b (g_list_sort_merge cmp (a :: l1) l2)).
        apply g_list_sort_merge_HdRel; [|assumption].
        constructor. assumption.
Qed.

(** The fuel [length q] of [g_queue_sort] is enough: the result is
    sorted. *)
Lemma g_list_sort_real_sorted (fuel : nat) :
  forall l, (length l <= fuel)%nat -> Forall P l ->
            Sorted (key_le key) (g_list_sort_real fuel cmp l).
Proof.
  induction fuel as [|fuel IH]; intros l Hl Pl.
  - destruct l as [|x [|y l]]; simpl in *; try lia; repeat constructor.
  - destruct l as [|x [|y l]]; try (repeat constructor; fail).
    cbn [g_list_sort_real].
    assert (D : (1 <= Nat.div2 (length (x :: y :: l)) < length (x :: y :: l))%nat).
    { split; [|apply Nat.lt_div2; simpl; lia].
      change (length (x :: y :: l)) with (S (S (length l))).
      change (Nat.div2 (S (S (length l)))) with (S (Nat.div2 (length l))).
      apply le_n_S, Nat.le_0_l. }
    remember (x :: y :: l) as q eqn:Eq. clear Eq.
    remember (Nat.div2 (length q)) as h eqn:Eh. clear Eh.
    rewrite <- (firstn_skipn h q) in Pl. apply Forall_app in Pl.
    destruct Pl as (Pf & Ps).
    apply g_list_sort_merge_sorted.
    + eapply Permutation_Forall;
        [apply Permutation_sym, g_list_sort_real_perm | exact Pf].
    + eapply Permutation_Forall;
        [apply Permutation_sym, g_list_sort_real_perm | exact Ps].
    + apply IH; [rewrite length_firstn; lia | exact Pf].
    + apply IH; [rewrite length_skipn; lia | exact Ps].
Qed.

Lemma g_queue_sort_sorted (q : GQueue) :
  Forall P q -> Sorted (key_le key) (g_queue_sort cmp q).
Proof. apply g_list_sort_real_sorted. unfold GQueue in *. lia. Qed.

End SortedByKey.

(** After a re-sort the Ready queue of a run is in order of total burst
    under shortest-job-first and in order of remaining burst under
    shortest-remaining-time-first. *)
Lemma sjf_resort_sorted (q : GQueue) :
  Forall live q ->
  Sorted (key_le total) (g_queue_sort sort_sjf q).
Proof.
  apply (g_queue_sort_sorted live total sort_sjf).
  intros a b (Fa & Ra) (Fb & Rb). unfold wf_fields in Fa, Fb.
  unfold sort_sjf, int_sub.
  rewrite wrap_id by (unfold in_int, INT_MIN, INT_MAX in *; lia). lia.
Qed.

Lemma srtf_resort_sorted (q : GQueue) :
  Forall live q ->
  Sorted (key_le remaining) (g_queue_sort sort_srtf q).
Proof.
  apply (g_queue_sort_sorted live remaining sort_srtf).
  intros a b (Fa & Ra) (Fb & Rb). unfold wf_fields in Fa, Fb.
  unfold sort_srtf, int_sub.
  rewrite wrap_id by (unfold in_int, INT_MIN, INT_MAX in *; lia). lia.
Qed.

(** C6: [execute_move] takes the head of the source queue and appends
    its updated record to the destination.  After the three insertions
    into Ready (new -> ready, waiting -> ready, running -> ready) Ready is
    the old Ready with the record at its tail under FCFS, and that list
    sorted with [sort_sjf] under SJF and with [sort_srtf] under SRTF.
    After ready -> running, running -> waiting and running -> terminated
    the destination is the old queue with the record at its tail under
    every policy, and Ready has only lost its head or is unchanged. *)
Theorem ready_queue_resort (st : State) (m : Move) (p : Process)
    (rest : GQueue) (t : Z) (sort : policy) :
  queue st (move_from m) = p :: rest ->
  (m = READY_TO_RUNNING -> running st = []) ->
  exists st',
    execute_move st (move_from m) (move_to m) m t sort = Some st' /\
    queue st' (move_from m) = rest /\
    (forall n, n <> move_from m -> n <> move_to m -> queue st' n = queue st n) /\
    match m with
    | NEW_TO_READY | WAITING_TO_READY | RUNNING_TO_READY =>
        ready st' =
        match sort with
        | FCFS_SORT => ready st ++ [moved_process m t p]
        | SJF_SORT => g_queue_sort sort_sjf (ready st ++ [moved_process m t p])
        | SRTF_SORT => g_queue_sort sort_srtf (ready st ++ [moved_process m t p])
        end
    | READY_TO_RUNNING =>
        running st' = [moved_process m t p] /\ ready st' = rest
    | RUNNING_TO_WAITING =>
        waiting st' = waiting st ++ [moved_process m t p] /\
        ready st' = ready st
    | RUNNING_TO_TERMINATED =>
        terminated st' = terminated st ++ [moved_process m t p] /\
        ready st' = ready st
    end.
Proof.
  intros Hq Hr. exists (after_move st m t sort p rest).
  split; [apply execute_move_after; assumption|].
  destruct (after_move_queues st m t sort p rest) as (Q1 & _ & Q3).
  split; [exact Q1|]. split; [exact Q3|].
  destruct m; simpl; try (destruct sort; reflexivity);
    try (split; reflexivity).
  rewrite (Hr eq_refl). split; reflexivity.
Qed.

Lemma ready_queue_resort_witness :
  queue preempt_state (move_from RUNNING_TO_READY) =
    [mkProcess 2 0 5 INT_MAX INT_MAX 5 0 0 2] /\
  (RUNNING_TO_READY = READY_TO_RUNNING -> running preempt_state = []) /\
  exists st',
    execute_move preempt_state QRunning QReady RUNNING_TO_READY 2 FCFS_SORT
      = Some st' /\
    queue st' QRunning = [] /\
    (forall n, n <> QRunning -> n <> QReady ->
               queue st' n = queue preempt_state n) /\
    ready st' =
    ready preempt_state ++
      [moved_process RUNNING_TO_READY 2 (mkProcess 2 0 5 INT_MAX INT_MAX 5 0 0 2)].
Proof.
  assert (H1 : queue preempt_state (move_from RUNNING_TO_READY) =
               [mkProcess 2 0 5 INT_MAX INT_MAX 5 0 0 2]) by reflexivity.
  assert (H2 : RUNNING_TO_READY = READY_TO_RUNNING -> running preempt_state = [])
    by discriminate.
  split; [exact H1|]. split; [exact H2|].
  exact (ready_queue_resort preempt_state RUNNING_TO_READY _ [] 2 FCFS_SORT H1 H2).
Defined.

(** The preempted process goes behind the longer job under FCFS (round
    robin) and in front of it under SRTF, its remaining burst being 3. *)
Example preempt_state_fcfs :
  option_map (fun s => map pid (ready s))
    (execute_move preempt_state QRunning QReady RUNNING_TO_READY 2 FCFS_SORT)
  = Some [1; 2].
Proof. reflexivity. Qed.

Example preempt_state_srtf :
  option_map (fun s => map pid (ready s))
    (execute_move preempt_state QRunning QReady RUNNING_TO_READY 2 SRTF_SORT)
  = Some [2; 1].
Proof. reflexivity. Qed.

(** ** Event times along a run *)

(** C9 (the event times returned by successive calls are
    non-decreasing) does not hold of the code.  On [backwards_input] the
    second process enters Waiting at 4 behind the first; only the head
    of Waiting is examined, so its return to Ready, due at 5, is the
    value returned by the call that follows the one returning 102. *)
Theorem event_times_go_backwards :
  option_map fst (run 8 (load backwards_input) INITIAL_TIME FCFS_SORT)
  = Some [0; 0; 1; 2; 2; 4; 102; 5] /\
  option_map (fun r => map (fun l => (line_time l, line_pid l, line_old l, line_new l))
                         (trace (snd r)))
    (run 8 (load backwards_input) INITIAL_TIME FCFS_SORT)
  = Some [(0, 1, NEW_STATE, READY_STATE);
          (0, 1, READY_STATE, RUNNING_STATE);
          (1, 2, NEW_STATE, READY_STATE);
          (2, 1, RUNNING_STATE, WAITING_STATE);
          (2, 2, READY_STATE, RUNNING_STATE);
          (4, 2, RUNNING_STATE, WAITING_STATE);
          (102, 1, WAITING_STATE, READY_STATE);
          (5, 2, WAITING_STATE, READY_STATE)].
Proof. split; vm_compute; reflexivity. Qed.
